(** * The decode path of package [marshaling] (pkg/marshaling/unmarshal.go)

    A shallow embedding of [Unflattened], [IsNillableKind], [IsNillableType],
    [UnmarshalMap], [BytesToType] and [UnmarshalByteMap], together with the
    parts of Go's [reflect], [io] and [encoding/binary] packages these
    functions call.

    Conventions of the embedding:
    - a Go function that may panic returns an [outcome]; a returned
      [(interface{}, error)] pair is a pair of options ([None] is [nil]);
    - Go types are the terms of [type]: the predeclared types, the type
      constructors, struct types with their name (the empty name for a
      struct type literal) and the types defined from a predeclared
      boolean, numeric or string type, which share its kind and differ in
      identity. Types defined from a pointer, slice, map, channel, function
      or interface type, struct types with embedded fields and recursive
      types are outside the embedding, and [TFunc] and [TInterface] each
      stand for one type of their kind. Values are the terms of [value],
      each of which determines its type ([typeOf]);
    - one location is reached through one pointer only (the decoders never
      alias), so the object graph below a target is a tree and in-place
      mutation is the functional update of that tree;
    - a [reflect.Value] is a value together with its [access]: whether it is
      addressable and whether it was obtained through an unexported field;
    - the iteration order of a Go map is arbitrary: a map that is ranged over
      is given as the list of its entries in the order of the iteration. *)

From Stdlib Require Import ZArith Lia.
From stdpp Require Import gmap strings list fin_maps.

Set Warnings "-register-all".
Local Open Scope Z_scope.

Abbreviation byte := Byte.byte.

(** ** Types and values of the reflected universe *)

Inductive ikind := I | I8 | I16 | I32 | I64.
Inductive ukind := U | U8 | U16 | U32 | U64 | Uptr.
Inductive fkind := F32 | F64.
Inductive ckind := C64 | C128.

(** reflect.Kind *)
Inductive Kind :=
| Invalid | Bool
| Int | Int8 | Int16 | Int32 | Int64
| Uint | Uint8 | Uint16 | Uint32 | Uint64 | Uintptr
| Float32 | Float64 | Complex64 | Complex128
| Array | Chan | Func | Interface | Map | Ptr | Slice | String | Struct
| UnsafePointer.

(** reflect.ChanDir *)
Inductive ChanDir := RecvDir | SendDir | BothDir.

(** The predeclared boolean, numeric and string types. *)
Inductive basic :=
| BBool
| BInt (k : ikind)
| BUint (k : ukind)
| BFloat (k : fkind)
| BComplex (k : ckind)
| BString.

(** reflect.Type. [TDefined name b] is the type declared [type name b]. *)
Inductive type :=
| TBool
| TInt (k : ikind)
| TUint (k : ukind)
| TFloat (k : fkind)
| TComplex (k : ckind)
| TString
| TUnsafePointer
| TArray (n : nat) (e : type)
| TChan (dir : ChanDir) (e : type)
| TFunc
| TInterface
| TMap (k e : type)
| TPtr (e : type)
| TSlice (e : type)
| TStruct (name : string) (fields : list (string * type))
| TDefined (name : string) (under : basic).

(** A Go value. Floats and complex numbers are kept as their IEEE bit
    patterns; a pointer, slice, map or interface is [None] when nil.
    [VDefined name x] is the value [x] of a predeclared type converted to the
    type [name] defined from that type. *)
Inductive value :=
| VBool (b : bool)
| VInt (k : ikind) (n : Z)
| VUint (k : ukind) (n : Z)
| VFloat (k : fkind) (bits : Z)
| VComplex (k : ckind) (re im : Z)
| VString (s : list byte)
| VUnsafePointer (addr : Z)
| VArray (e : type) (elems : list value)
| VChan (dir : ChanDir) (e : type) (made : bool)
| VFunc (made : bool)
| VInterface (dyn : option value)
| VMap (k e : type) (entries : option (list (value * value)))
| VPtr (e : type) (pointee : option value)
| VSlice (e : type) (elems : option (list value))
| VStruct (name : string) (fields : list (string * value))
| VDefined (name : string) (x : value).

Definition ikind_Kind (k : ikind) : Kind :=
  match k with I => Int | I8 => Int8 | I16 => Int16 | I32 => Int32 | I64 => Int64 end.

Definition ukind_Kind (k : ukind) : Kind :=
  match k with
  | U => Uint | U8 => Uint8 | U16 => Uint16 | U32 => Uint32 | U64 => Uint64
  | Uptr => Uintptr
  end.

Definition fkind_Kind (k : fkind) : Kind :=
  match k with F32 => Float32 | F64 => Float64 end.

Definition ckind_Kind (k : ckind) : Kind :=
  match k with C64 => Complex64 | C128 => Complex128 end.

Definition basicType (b : basic) : type :=
  match b with
  | BBool => TBool
  | BInt k => TInt k
  | BUint k => TUint k
  | BFloat k => TFloat k
  | BComplex k => TComplex k
  | BString => TString
  end.

(** The predeclared type a type of a boolean, numeric or string kind is, or
    is defined from. *)
Definition basicOf (t : type) : option basic :=
  match t with
  | TBool => Some BBool
  | TInt k => Some (BInt k)
  | TUint k => Some (BUint k)
  | TFloat k => Some (BFloat k)
  | TComplex k => Some (BComplex k)
  | TString => Some BString
  | TDefined _ b => Some b
  | _ => None
  end.

Definition basic_Kind (b : basic) : Kind :=
  match b with
  | BBool => Bool
  | BInt k => ikind_Kind k
  | BUint k => ukind_Kind k
  | BFloat k => fkind_Kind k
  | BComplex k => ckind_Kind k
  | BString => String
  end.

(** reflect.Type.Kind *)
Definition Type_Kind (t : type) : Kind :=
  match t with
  | TBool => Bool
  | TInt k => ikind_Kind k
  | TUint k => ukind_Kind k
  | TFloat k => fkind_Kind k
  | TComplex k => ckind_Kind k
  | TString => String
  | TUnsafePointer => UnsafePointer
  | TArray _ _ => Array
  | TChan _ _ => Chan
  | TFunc => Func
  | TInterface => Interface
  | TMap _ _ => Map
  | TPtr _ => Ptr
  | TSlice _ => Slice
  | TStruct _ _ => Struct
  | TDefined _ b => basic_Kind b
  end.

(** reflect.Value.Type, for a valid value *)
Fixpoint typeOf (v : value) : type :=
  match v with
  | VBool _ => TBool
  | VInt k _ => TInt k
  | VUint k _ => TUint k
  | VFloat k _ => TFloat k
  | VComplex k _ _ => TComplex k
  | VString _ => TString
  | VUnsafePointer _ => TUnsafePointer
  | VArray e l => TArray (length l) e
  | VChan d e _ => TChan d e
  | VFunc _ => TFunc
  | VInterface _ => TInterface
  | VMap k e _ => TMap k e
  | VPtr e _ => TPtr e
  | VSlice e _ => TSlice e
  | VStruct name fs => TStruct name (map (fun f => (fst f, typeOf (snd f))) fs)
  | VDefined name x =>
      match basicOf (typeOf x) with
      | Some b => TDefined name b
      | None => typeOf x
      end
  end.

Definition zeroBasic (b : basic) : value :=
  match b with
  | BBool => VBool false
  | BInt k => VInt k 0
  | BUint k => VUint k 0
  | BFloat k => VFloat k 0
  | BComplex k => VComplex k 0 0
  | BString => VString []
  end.

(** reflect.Zero *)
Fixpoint zero (t : type) : value :=
  match t with
  | TBool => VBool false
  | TInt k => VInt k 0
  | TUint k => VUint k 0
  | TFloat k => VFloat k 0
  | TComplex k => VComplex k 0 0
  | TString => VString []
  | TUnsafePointer => VUnsafePointer 0
  | TArray n e => VArray e (replicate n (zero e))
  | TChan d e => VChan d e false
  | TFunc => VFunc false
  | TInterface => VInterface None
  | TMap k e => VMap k e None
  | TPtr e => VPtr e None
  | TSlice e => VSlice e None
  | TStruct name fs => VStruct name (map (fun f => (fst f, zero (snd f))) fs)
  | TDefined name b => VDefined name (zeroBasic b)
  end.

(** reflect.Value.Interface: a value of interface kind yields its dynamic
    value, every other value is boxed as it is. *)
Definition Value_Interface (v : value) : option value :=
  match v with VInterface dyn => dyn | _ => Some v end.

Global Instance Kind_eq_dec : EqDecision Kind.
Proof. solve_decision. Defined.

Global Instance byte_eq_dec : EqDecision byte := Byte.byte_eq_dec.

Global Instance ChanDir_eq_dec : EqDecision ChanDir.
Proof. solve_decision. Defined.

Global Instance ikind_eq_dec : EqDecision ikind.
Proof. solve_decision. Defined.

Global Instance ukind_eq_dec : EqDecision ukind.
Proof. solve_decision. Defined.

Global Instance fkind_eq_dec : EqDecision fkind.
Proof. solve_decision. Defined.

Global Instance ckind_eq_dec : EqDecision ckind.
Proof. solve_decision. Defined.

Global Instance basic_eq_dec : EqDecision basic.
Proof. solve_decision. Defined.

(** Identity of types ([==] on [reflect.Type]). *)
Fixpoint type_eqb (t1 t2 : type) {struct t1} : bool :=
  match t1, t2 with
  | TBool, TBool | TString, TString | TUnsafePointer, TUnsafePointer
  | TFunc, TFunc | TInterface, TInterface => true
  | TInt k1, TInt k2 => bool_decide (k1 = k2)
  | TUint k1, TUint k2 => bool_decide (k1 = k2)
  | TFloat k1, TFloat k2 => bool_decide (k1 = k2)
  | TComplex k1, TComplex k2 => bool_decide (k1 = k2)
  | TArray n1 e1, TArray n2 e2 => (n1 =? n2)%nat && type_eqb e1 e2
  | TChan d1 e1, TChan d2 e2 => bool_decide (d1 = d2) && type_eqb e1 e2
  | TMap k1 e1, TMap k2 e2 => type_eqb k1 k2 && type_eqb e1 e2
  | TPtr e1, TPtr e2 => type_eqb e1 e2
  | TSlice e1, TSlice e2 => type_eqb e1 e2
  | TStruct n1 fs1, TStruct n2 fs2 =>
      String.eqb n1 n2 &&
      (fix fields (fs1 fs2 : list (string * type)) : bool :=
         match fs1, fs2 with
         | [], [] => true
         | f1 :: fs1', f2 :: fs2' =>
             String.eqb (fst f1) (fst f2) && type_eqb (snd f1) (snd f2) &&
             fields fs1' fs2'
         | _, _ => false
         end) fs1 fs2
  | TDefined n1 b1, TDefined n2 b2 => String.eqb n1 n2 && bool_decide (b1 = b2)
  | _, _ => false
  end.

(** ** Errors and panics *)

(** The causes wrapped by [ErrInvalidData.NewWithCause]. *)
Inductive cause :=
| EmptyByteSlice                         (* "empty byte slice specified" *)
| IndirectedNil                          (* "indirected value is nil" *)
| UnmatchedEncoding                      (* "unmatched encoding" *)
| UnmarshaledDataLeft                    (* "Unmarshaled data left in buffer" *)
| KindMismatch (mk : string) (fieldKind valueKind : Kind)
    (* "field value `%s` has kind `%s`, when `%s` is expected" *)
| UnmatchedValueKind (vk : Kind).        (* "unmatched map value kind: `%s`" *)

(** The errors the package returns. The errors of the external decoders
    (JSON, protobuf, MessagePack, gob) and of a custom [MapUnmarshaler] are
    returned verbatim; they are kept as their message. *)
Inductive error :=
| ErrInvalidData (c : cause)
| ErrUnsupportedVersion (ver : byte)     (* "unsupported version: %d" *)
| ErrOverflow (v : Z) (t : type)         (* "stored value (%d) overflows %s" *)
| ErrUnreadData                          (* "unread data left in buffer" *)
| ErrFieldNotFound (sk : string) (t : type)
    (* "field `%s` specified, but does not exist on structs of type `%s`" *)
| ErrNotProto (ev pv : type)             (* "expected %s or %s to implement %s" *)
| ErrUnexpectedEOF                       (* io.ErrUnexpectedEOF *)
| ErrBinaryInvalidType (t : type)        (* "binary.Read: invalid type ..." *)
| ErrExternal (msg : string).


(** Run-time panics of the Go code. *)
Inductive panic :=
| PanicSliceBounds (low high : nat)      (* slice bounds out of range [low:high] *)
| PanicSliceBoundsNegative               (* slice bounds out of range [:-1] *)
| PanicNotAMap                           (* interface conversion: not a map[string]interface{} *)
| PanicNilMap                            (* assignment to entry in nil map *)
| PanicDivideByZero                      (* integer divide by zero *)
| PanicTypeOfZeroValue                   (* reflect.Value.Type on zero Value *)
| PanicFieldByName (k : Kind)            (* reflect.Value.FieldByName on a non-struct *)
| PanicUnaddressable                     (* reflect.Value.Set using unaddressable value *)
| PanicUnexportedField
    (* reflect.Value.Set (SetInt, ...) using value obtained using unexported field *)
| PanicNotAssignable (v t : type)
    (* reflect.Set: value of type v is not assignable to type t *)
| PanicMakeChan                          (* reflect.MakeChan: unidirectional channel type *)
| PanicNilConversion.                    (* interface conversion: interface is nil *)

Inductive outcome (A : Type) :=
| Return (a : A)
| Panic (p : panic).

Arguments Return {A} a.
Arguments Panic {A} p.

Global Instance outcome_bind : MBind outcome :=
  fun A B f m => match m with Return a => f a | Panic p => Panic p end.

(** ** The package constants and the external collaborators *)

(** Modelled from the spec: the encoding tags of the envelope wire format,
    declared elsewhere in the package (byte 1 of an envelope: 0=Empty,
    1=Fixed BE, 2=Fixed LE, 3=JSON, 4=Protobuf, 5=MessagePack, 6=gob). *)
Definition ZeroEncoding : byte := Byte.x00.
Definition BigEndianEncoding : byte := Byte.x01.
Definition LittleEndianEncoding : byte := Byte.x02.
Definition JSONEncoding : byte := Byte.x03.
Definition ProtoEncoding : byte := Byte.x04.
Definition MsgPackEncoding : byte := Byte.x05.
Definition GobEncoding : byte := Byte.x06.

(** Modelled from the spec: the separator of the segments of a flattened key,
    a constant declared elsewhere in the package (keys are dot-joined). *)
Definition Separator : string := ".".

(** What the file takes from its environment: the supported version constant
    (declared elsewhere in the package), the platform and the libraries the
    decoder delegates to.
    - [archSize] is [reflect.Type.Size] for the types whose size is not
      fixed by the language;
    - [float32ViaFloat64] is the conversion of a float32, given by its bits,
      to float64 and back, which is how [reflect.Value.SetFloat] and
      [SetComplex] store it: the platform may quiet a signalling NaN;
    - [binaryFastFloats] tells whether [binary.Read] stores a [*float32] in
      its fast path, bits untouched, as its later versions do;
    - [unicodeUpper] is [unicode.IsUpper] of the first rune of a name that
      does not begin with an ASCII character;
    - a library decoder receives the payload and the freshly allocated
      instance and leaves the instance as decoded, with its error if any. *)
Record Env := {
  DefaultVersion : byte;
  archSize : type -> Z;
  float32ViaFloat64 : Z -> Z;
  binaryFastFloats : bool;
  unicodeUpper : string -> bool;
  jsonDecode : list byte -> value -> value * option string;
  implementsProto : type -> bool;
  protoUnmarshal : type -> list byte -> value -> value * option string;
  implementsMsgp : type -> bool;
  msgpUnmarshalMsg : type -> list byte -> value -> list byte * value * option string;
  msgpackDecodeValue : list byte -> value -> value * option string;
  gobDecodeValue : list byte -> value -> value * option string;
  mapUnmarshaler :
    type -> option (list (string * option value) -> value -> value * option error)
}.

(** Whether a field name is exported: it begins with an upper-case letter. *)
Definition IsExported (env : Env) (name : string) : bool :=
  match name with
  | EmptyString => false
  | String.String c _ =>
      let n := Ascii.nat_of_ascii c in
      if (n <? 128)%nat then (65 <=? n)%nat && (n <=? 90)%nat
      else unicodeUpper env name
  end.

(** ** Byte order ([encoding/binary]) *)

Inductive ByteOrder := BigEndian | LittleEndian.

Definition byteZ (b : byte) : Z := Z.of_N (Byte.to_N b).

(** The unsigned integer held by a byte string, most significant byte first. *)
Definition beUint (bs : list byte) : Z :=
  fold_left (fun acc b => acc * 256 + byteZ b) bs 0.

Definition orderUint (bo : ByteOrder) (bs : list byte) : Z :=
  match bo with BigEndian => beUint bs | LittleEndian => beUint (rev bs) end.

(** Reinterpretation of an unsigned [bits]-bit integer as two's complement. *)
Definition toSigned (bits : Z) (x : Z) : Z :=
  if x <? 2 ^ (bits - 1) then x else x - 2 ^ bits.

(** Wrap-around of a mathematical integer into an unsigned 64-bit word. *)
Definition wrap64 (x : Z) : Z := x mod 2 ^ 64.

(** The wire width of the fixed-size scalar kinds, in bytes: what
    [t.Size()] is for them on every platform. *)
Definition basicSize (b : basic) : option nat :=
  match b with
  | BBool => Some 1%nat
  | BInt I8 | BUint U8 => Some 1%nat
  | BInt I16 | BUint U16 => Some 2%nat
  | BInt I32 | BUint U32 | BFloat F32 => Some 4%nat
  | BInt I64 | BUint U64 | BFloat F64 | BComplex C64 => Some 8%nat
  | BComplex C128 => Some 16%nat
  | _ => None
  end.

Definition fixedSize (t : type) : option nat :=
  match t with
  | TBool => Some 1%nat
  | TInt I8 | TUint U8 => Some 1%nat
  | TInt I16 | TUint U16 => Some 2%nat
  | TInt I32 | TUint U32 | TFloat F32 => Some 4%nat
  | TInt I64 | TUint U64 | TFloat F64 | TComplex C64 => Some 8%nat
  | TComplex C128 => Some 16%nat
  | TDefined _ b => basicSize b
  | _ => None
  end.

(** binary.sizeof: the encoded size of a type, [None] where Go returns -1. *)
Fixpoint sizeof (t : type) : option nat :=
  match t with
  | TArray n e => s ← sizeof e; Some (s * n)%nat
  | TStruct _ fs =>
      (fix sum (fs : list (string * type)) : option nat :=
         match fs with
         | [] => Some 0%nat
         | f :: fs' => s ← sizeof (snd f); r ← sum fs'; Some (s + r)%nat
         end) fs
  | _ => fixedSize t
  end.

Section Binary.

Variable env : Env.

(** binary.decoder.value on a value of a boolean or numeric kind: the value
    read from the front of [bs], and the bytes that follow. A float32, and
    each part of a complex64, is stored by way of a float64. *)
Definition decodeBasic (bo : ByteOrder) (b : basic) (bs : list byte)
  : value * list byte :=
  match b with
  | BBool => (VBool (negb (orderUint bo (take 1 bs) =? 0)), drop 1 bs)
  | BInt k =>
      match basicSize b with
      | Some w =>
          (VInt k (toSigned (8 * Z.of_nat w) (orderUint bo (take w bs))), drop w bs)
      | None => (zeroBasic b, bs)
      end
  | BUint k =>
      match basicSize b with
      | Some w => (VUint k (orderUint bo (take w bs)), drop w bs)
      | None => (zeroBasic b, bs)
      end
  | BFloat F32 =>
      (VFloat F32 (float32ViaFloat64 env (orderUint bo (take 4 bs))), drop 4 bs)
  | BFloat F64 => (VFloat F64 (orderUint bo (take 8 bs)), drop 8 bs)
  | BComplex C64 =>
      (VComplex C64 (float32ViaFloat64 env (orderUint bo (take 4 bs)))
                    (float32ViaFloat64 env (orderUint bo (take 4 (drop 4 bs)))),
       drop 4 (drop 4 bs))
  | BComplex C128 =>
      (VComplex C128 (orderUint bo (take 8 bs)) (orderUint bo (take 8 (drop 8 bs))),
       drop 8 (drop 8 bs))
  | BString => (zeroBasic b, bs)
  end.

(** binary.decoder.value: decode a value of type [t] from the front of [bs]
    and return it with the bytes that follow. Kinds that [sizeof] rejects are
    left at their zero value. The blank fields of a struct are skipped. *)
Fixpoint decodeValue (bo : ByteOrder) (t : type) (bs : list byte) {struct t}
  : value * list byte :=
  match t with
  | TBool => decodeBasic bo BBool bs
  | TInt k => decodeBasic bo (BInt k) bs
  | TUint k => decodeBasic bo (BUint k) bs
  | TFloat k => decodeBasic bo (BFloat k) bs
  | TComplex k => decodeBasic bo (BComplex k) bs
  | TDefined name b =>
      let '(v, r) := decodeBasic bo b bs in (VDefined name v, r)
  | TArray n e =>
      let '(vs, rest) :=
        (fix elems (n : nat) (bs : list byte) : list value * list byte :=
           match n with
           | O => ([], bs)
           | S n' =>
               let '(v, r) := decodeValue bo e bs in
               let '(vs, r') := elems n' r in
               (v :: vs, r')
           end) n bs in
      (VArray e vs, rest)
  | TStruct name fs =>
      let '(vs, rest) :=
        (fix fields (fs : list (string * type)) (bs : list byte)
           : list (string * value) * list byte :=
           match fs with
           | [] => ([], bs)
           | f :: fs' =>
               let '(v, r) :=
                 if String.eqb (fst f) "_"
                 then (zero (snd f), drop (default 0%nat (sizeof (snd f))) bs)
                 else decodeValue bo (snd f) bs in
               let '(vs, r') := fields fs' r in
               ((fst f, v) :: vs, r')
           end) fs bs in
      (VStruct name vs, rest)
  | _ => (zero t, bs)
  end.

(** The elements of a slice of [n] values of type [e], decoded in order. *)
Fixpoint decodeElems (bo : ByteOrder) (e : type) (n : nat) (bs : list byte)
  : list value :=
  match n with
  | O => []
  | S n' => let '(v, r) := decodeValue bo e bs in v :: decodeElems bo e n' r
  end.

(** Whether binary.decoder.value, on a value of type [t] that is read-only
    when [ro] is set, reaches a setter ([SetBool], [SetInt], [SetUint],
    [SetFloat], [SetComplex]) on a read-only value, which panics. The fields
    of a struct other than the blank ones are decoded whether they can be set
    or not; a value is read-only below an unexported field. *)
Fixpoint setsReadOnly (ro : bool) (t : type) {struct t} : bool :=
  match t with
  | TArray n e => negb (n =? 0)%nat && setsReadOnly ro e
  | TStruct _ fs =>
      (fix fields (fs : list (string * type)) : bool :=
         match fs with
         | [] => false
         | f :: fs' =>
             (negb (String.eqb (fst f) "_") &&
              setsReadOnly (ro || negb (IsExported env (fst f))) (snd f))
             || fields fs'
         end) fs
  | _ => match fixedSize t with Some _ => ro | None => false end
  end.

End Binary.

(** io.ReadFull on a [bytes.Buffer]: what reading exactly [n] bytes yields. *)
Inductive readFull_result :=
| ReadOK (data rest : list byte)
| ReadEOF                        (* io.EOF: nothing could be read *)
| ReadUnexpectedEOF.             (* io.ErrUnexpectedEOF: the input ended mid-read *)

Definition ReadFull (buf : list byte) (n : nat) : readFull_result :=
  if decide (n = 0%nat) then ReadOK [] buf
  else if decide (length buf = 0%nat) then ReadEOF
  else if decide (length buf < n)%nat then ReadUnexpectedEOF
  else ReadOK (take n buf) (drop n buf).

(** ** IsNillableKind, IsNillableType *)

Definition IsNillableKind (k : Kind) : bool :=
  bool_decide (k = Ptr) ||
  bool_decide (k = Map) ||
  bool_decide (k = Interface) ||
  bool_decide (k = Chan) ||
  bool_decide (k = Func) ||
  bool_decide (k = Slice).

Definition IsNillableType (t : type) : bool := IsNillableKind (Type_Kind t).

(** ** BytesToType *)

(** The slice expression [b[low:]]. *)
Definition sliceFrom (low : nat) (b : list byte) : outcome (list byte) :=
  if decide (low <= length b)%nat then Return (drop low b)
  else Panic (PanicSliceBounds low (length b)).

(** The type [iv] has once the loop [for iv.Kind() == reflect.Ptr] is over. *)
Fixpoint indirect (t : type) : type :=
  match t with TPtr e => indirect e | _ => t end.

(** [pv.Elem()] once that loop has allocated every pointer of the chain and
    the innermost location holds [iv]. *)
Fixpoint chain (t : type) (iv : value) : value :=
  match t with TPtr e => VPtr e (Some (chain e iv)) | _ => iv end.

(** The switch that pre-initializes [iv]: MakeSlice, MakeMap, MakeChan and
    MakeFunc; every other kind stays at its zero value. [reflect.MakeChan]
    panics on a channel type that is not bidirectional. *)
Definition initial (it : type) : outcome value :=
  match it with
  | TSlice e => Return (VSlice e (Some []))
  | TMap k e => Return (VMap k e (Some []))
  | TChan BothDir e => Return (VChan BothDir e true)
  | TChan _ _ => Panic PanicMakeChan
  | TFunc => Return (VFunc true)
  | _ => Return (zero it)
  end.

(** [iv.SetString], [iv.SetInt] and [iv.SetUint] on the zero value of a type
    of string or integer kind: the value keeps its type. *)
Definition SetString (it : type) (s : list byte) : value :=
  match it with
  | TDefined name _ => VDefined name (VString s)
  | _ => VString s
  end.

Definition SetInt (it : type) (x : Z) : value :=
  match it with
  | TInt k => VInt k x
  | TDefined name (BInt k) => VDefined name (VInt k x)
  | _ => zero it
  end.

Definition SetUint (it : type) (x : Z) : value :=
  match it with
  | TUint k => VUint k x
  | TDefined name (BUint k) => VDefined name (VUint k x)
  | _ => zero it
  end.

Section Decode.

Variable env : Env.

(** reflect.Type.Size *)
Definition Size (t : type) : Z :=
  match fixedSize t with Some n => Z.of_nat n | None => archSize env t end.

(** reflect.Value.OverflowInt and OverflowUint: [x] differs from its
    truncation to the bit size of the type (at most 64). *)
Definition OverflowInt (t : type) (x : Z) : bool :=
  let bitSize := Size t * 8 in
  let trunc := Z.shiftr (toSigned 64 (wrap64 (Z.shiftl x (64 - bitSize)))) (64 - bitSize) in
  negb (x =? trunc).

Definition OverflowUint (t : type) (x : Z) : bool :=
  let bitSize := Size t * 8 in
  let trunc := Z.shiftr (wrap64 (Z.shiftl x (64 - bitSize))) (64 - bitSize) in
  negb (x =? trunc).

(** The last two statements of the fixed-width case: the leftover check and
    the return of [pv.Elem().Interface(), err]. *)
Definition finish (ev : value) (rest : list byte) : option value * option error :=
  (Value_Interface ev,
   if decide (0 < length rest)%nat then Some ErrUnreadData else None).

(** What [binary.Read] stores through [pv.Interface()], a pointer to a value
    of type [typ], from the bytes it has read: a [*float32] goes through the
    fast path where there is one, every other type through
    [binary.decoder.value]. *)
Definition readValue (bo : ByteOrder) (typ : type) (data : list byte) : value :=
  match typ with
  | TFloat F32 =>
      if binaryFastFloats env then VFloat F32 (orderUint bo (take 4 data))
      else fst (decodeValue env bo typ data)
  | _ => fst (decodeValue env bo typ data)
  end.

(** The cases BigEndianEncoding and LittleEndianEncoding, for the instance
    [iv] that lines 176 to 193 have allocated. *)
Definition decodeFixed (bo : ByteOrder) (typ : type) (iv : value) (b : list byte)
  : outcome (option value * option error) :=
  let it := indirect typ in
  iv ← match it with
       | TSlice e =>
           if decide (Size e = 0) then Panic PanicDivideByZero
           else
             let n := Z.to_nat (Z.of_nat (length b) / Size e) in
             Return (VSlice e (Some (replicate n (zero e))))
       | _ => Return iv
       end;
  let ev := chain typ iv in
  (* the number of bytes binary.Read asks for, given what iface is *)
  let size :=
    match Type_Kind it with
    | String => Some (length b)
    | Int | Uint | Uintptr => Some 8%nat
    | _ =>
        match ev with
        | VSlice e (Some l) => s ← sizeof e; Some (s * length l)%nat
        | _ => sizeof typ
        end
    end in
  match size with
  | None => Return (None, Some (ErrBinaryInvalidType (TPtr typ)))
  | Some n =>
      match ReadFull b n with
      | ReadEOF => Return (Value_Interface ev, None)
      | ReadUnexpectedEOF => Return (None, Some ErrUnexpectedEOF)
      | ReadOK data rest =>
          match Type_Kind it with
          | String => Return (finish (chain typ (SetString it data)) rest)
          | Int =>
              let v := toSigned 64 (orderUint bo data) in
              if OverflowInt it v then Return (None, Some (ErrOverflow v it))
              else Return (finish (chain typ (SetInt it v)) rest)
          | Uint | Uintptr =>
              let v := orderUint bo data in
              if OverflowUint it v then Return (None, Some (ErrOverflow v it))
              else Return (finish (chain typ (SetUint it v)) rest)
          | _ =>
              match ev with
              | VSlice e (Some l) =>
                  if negb (length l =? 0)%nat && setsReadOnly env false e
                  then Panic PanicUnexportedField
                  else Return (finish (VSlice e (Some (decodeElems env bo e (length l) data)))
                                 rest)
              | _ =>
                  if setsReadOnly env false typ then Panic PanicUnexportedField
                  else Return (finish (readValue bo typ data) rest)
              end
          end
      end
  end.

(** A decoder of an external library applied to the allocated instance. *)
Definition delegated (r : value * option string) : option value * option error :=
  (Value_Interface (fst r), ErrExternal <$> snd r).

(** The type assertion [rv.Interface().(T)] for [rv = ev]: it panics when
    [ev] is a nil interface value. *)
Definition assertNonNil (ev : value) : outcome unit :=
  match Value_Interface ev with
  | None => Panic PanicNilConversion
  | Some _ => Return tt
  end.

Definition BytesToType (b : list byte) (typ : type)
  : outcome (option value * option error) :=
  match b with
  | [] => Return (None, Some (ErrInvalidData EmptyByteSlice))
  | ver :: b =>
      if negb (bool_decide (ver = DefaultVersion env))
      then Return (None, Some (ErrUnsupportedVersion ver))
      else
        let enc := match b with e :: _ => e | [] => Byte.x00 end in
        b ← sliceFrom 1 b;
        if bool_decide (enc = ZeroEncoding) && IsNillableType typ
        then Return (None, None)
        else
          iv ← initial (indirect typ);
          let ev := chain typ iv in
          if bool_decide (enc = ZeroEncoding) then
            Return (Value_Interface ev, None)
          else if bool_decide (enc = BigEndianEncoding) then
            decodeFixed BigEndian typ iv b
          else if bool_decide (enc = LittleEndianEncoding) then
            decodeFixed LittleEndian typ iv b
          else if bool_decide (enc = JSONEncoding) then
            Return (delegated (jsonDecode env b ev))
          else if bool_decide (enc = ProtoEncoding) then
            if implementsProto env typ then
              _ ← assertNonNil ev;
              Return (delegated (protoUnmarshal env typ b ev))
            else if implementsProto env (TPtr typ) then
              Return (delegated (protoUnmarshal env (TPtr typ) b ev))
            else Return (None, Some (ErrNotProto typ (TPtr typ)))
          else if bool_decide (enc = MsgPackEncoding) then
            if implementsMsgp env typ || implementsMsgp env (TPtr typ) then
              let rt := if implementsMsgp env typ then typ else TPtr typ in
              _ ← (if implementsMsgp env typ then assertNonNil ev else Return tt);
              let '(unread, ev', err) := msgpUnmarshalMsg env rt b ev in
              if decide (0 < length unread)%nat
              then Return (None, Some (ErrInvalidData UnmarshaledDataLeft))
              else Return (delegated (ev', err))
            else Return (delegated (msgpackDecodeValue env b ev))
          else if bool_decide (enc = GobEncoding) then
            Return (delegated (gobDecodeValue env b ev))
          else Return (None, Some (ErrInvalidData UnmatchedEncoding))
  end.

End Decode.

(** The memory layout of the Go compiler for a platform with words of
    [word] bytes: the size and the alignment of a type. A struct that ends in
    a zero-sized field is padded by one byte. *)
Definition roundUp (x a : Z) : Z := (x + a - 1) / a * a.

Definition basicLayout (word : Z) (b : basic) : Z * Z :=
  match b with
  | BBool | BInt I8 | BUint U8 => (1, 1)
  | BInt I16 | BUint U16 => (2, 2)
  | BInt I32 | BUint U32 | BFloat F32 => (4, 4)
  | BInt I64 | BUint U64 | BFloat F64 => (8, word)
  | BComplex C64 => (8, 4)
  | BComplex C128 => (16, word)
  | BString => (2 * word, word)
  | BInt I | BUint U | BUint Uptr => (word, word)
  end.

Fixpoint layout (word : Z) (t : type) : Z * Z :=
  match t with
  | TBool | TInt I8 | TUint U8 => (1, 1)
  | TInt I16 | TUint U16 => (2, 2)
  | TInt I32 | TUint U32 | TFloat F32 => (4, 4)
  | TInt I64 | TUint U64 | TFloat F64 => (8, word)
  | TComplex C64 => (8, 4)
  | TComplex C128 => (16, word)
  | TString | TInterface => (2 * word, word)
  | TSlice _ => (3 * word, word)
  | TArray n e => let '(s, a) := layout word e in (Z.of_nat n * s, a)
  | TStruct _ fs =>
      let '(off, al, lastZero) :=
        (fix fields (fs : list (string * type)) (off al : Z) (lastZero : bool)
           : Z * Z * bool :=
           match fs with
           | [] => (off, al, lastZero)
           | f :: fs' =>
               let '(s, a) := layout word (snd f) in
               fields fs' (roundUp off a + s) (Z.max al a) (s =? 0)
           end) fs 0 1 false in
      (roundUp (if lastZero && (0 <? off) then off + 1 else off) al, al)
  | TDefined _ b => basicLayout word b
  | _ => (word, word)
  end.

(** float32 to float64 and back where the hardware converts: the bits are
    kept, except that a signalling NaN (exponent all ones, fraction not zero,
    quiet bit clear) comes back with its quiet bit set. *)
Definition quietNaN32 (bits : Z) : Z :=
  if (Z.land (Z.shiftr bits 23) 255 =? 255) && negb (Z.land bits 8388607 =? 0)
  then Z.lor bits 4194304
  else bits.

(** Two platforms to run the decoder on: 64-bit and 32-bit words, with
    [encoding/binary] as it was when the package was written (no fast path
    for floats), field names in ASCII, and library decoders that leave the
    instance untouched and report nothing. *)
Definition wordEnv (ver : byte) (word : Z) : Env := {|
  DefaultVersion := ver;
  archSize := fun t => fst (layout word t);
  float32ViaFloat64 := quietNaN32;
  binaryFastFloats := false;
  unicodeUpper := fun _ => false;
  jsonDecode := fun _ v => (v, None);
  implementsProto := fun _ => false;
  protoUnmarshal := fun _ _ v => (v, None);
  implementsMsgp := fun _ => false;
  msgpUnmarshalMsg := fun _ _ v => ([], v, None);
  msgpackDecodeValue := fun _ v => (v, None);
  gobDecodeValue := fun _ v => (v, None);
  mapUnmarshaler := fun _ => None
|}.

Definition amd64 : Env := wordEnv Byte.x01 8.
Definition i386 : Env := wordEnv Byte.x01 4.


(** ** strings.Split *)

(** [splitFrom sep skip s]: the segments of [s], where the first [skip]
    characters of [s] are the rest of a separator that has just been met.
    [sep] is not empty (the package only splits on [Separator]). *)
Fixpoint splitFrom (sep : string) (skip : nat) (s : string) : list string :=
  match s with
  | EmptyString => [EmptyString]
  | String.String c s' =>
      match skip with
      | S k => splitFrom sep k s'
      | O =>
          if String.prefix sep s
          then EmptyString :: splitFrom sep (String.length sep - 1) s'
          else
            match splitFrom sep 0 s' with
            | seg :: segs => String.String c seg :: segs
            | [] => [String.String c EmptyString]
            end
      end
  end.

Definition Split (s sep : string) : list string := splitFrom sep 0 s.

(** ** Unflattened *)

(** What a [map[string]interface{}] holds: a nested mapping, the nil value of
    the type of such mappings, or any other value (of type [A]). *)
Inductive nested (A : Type) :=
| Leaf (a : A)
| Mapping (m : gmap string (nested A))
| NilMapping.

Arguments Leaf {A} a.
Arguments Mapping {A} m.
Arguments NilMapping {A}.

(** [skeys[:len(skeys)-1]] together with [skeys[len(skeys)-1]]. *)
Fixpoint unsnoc {A} (l : list A) : option (list A * A) :=
  match l with
  | [] => None
  | [x] => Some ([], x)
  | x :: l' => '(init, y) ← unsnoc l'; Some (x :: init, y)
  end.

(** The body of the outer loop, from [parent := out] on: walk (and create)
    the mappings along [skeys] below [parent], then bind [last] to [v]. The
    nested maps are updated in place; the result is [parent] afterwards. The
    type assertion fails on a value that is not a mapping, and it succeeds
    on the nil mapping, in which the next store panics. The mappings among
    the values of [m] are taken to be distinct objects, none of them held
    under two keys, so that a store below one key is not seen below
    another. *)
Fixpoint bindAt {A} (parent : gmap string (nested A)) (skeys : list string)
    (last : string) (v : nested A) : outcome (gmap string (nested A)) :=
  match skeys with
  | [] => Return (<[last := v]> parent)
  | sk :: skeys' =>
      match parent !! sk with
      | None =>
          sm ← bindAt ∅ skeys' last v;
          Return (<[sk := Mapping sm]> parent)
      | Some (Mapping sm) =>
          sm' ← bindAt sm skeys' last v;
          Return (<[sk := Mapping sm']> parent)
      | Some (Leaf _) => Panic PanicNotAMap
      | Some NilMapping => Panic PanicNilMap
      end
  end.

(** The body of the range loop of [Unflattened]: one entry of [m]. *)
Definition unflattenStep {A} (acc : outcome (gmap string (nested A)))
    (kv : string * nested A) : outcome (gmap string (nested A)) :=
  out ← acc;
  match unsnoc (Split (fst kv) Separator) with
  | None => Panic PanicSliceBoundsNegative
  | Some (skeys, last) => bindAt out skeys last (snd kv)
  end.

(** [Unflattened], on the entries of [m] in the order the range visits them. *)
Definition Unflattened {A} (m : list (string * nested A))
  : outcome (gmap string (nested A)) :=
  foldl unflattenStep (Return ∅) m.

(** The value bound at a path of segments in a nested mapping. *)
Fixpoint lookupPath {A} (path : list string) (x : nested A) : option (nested A) :=
  match path with
  | [] => Some x
  | sk :: path' =>
      match x with
      | Mapping m => y ← m !! sk; lookupPath path' y
      | _ => None
      end
  end.

(** ** UnmarshalMap *)

(** How a call that mutates its target ended. *)
Inductive status :=
| Success                   (* returned a nil error *)
| Failure (e : error)       (* returned the error *)
| Panicked (p : panic).

(** What [reflect] allows on a [Value]: it can be set when it is
    addressable and was not obtained through an unexported field (the flags
    [flagAddr] and [flagRO]). *)
Inductive access :=
| Settable
| Unaddressable
| ReadOnly.                 (* obtained through an unexported field *)

(** reflect.Value.Elem on a pointer: the pointee is addressable. *)
Definition Elem_access (a : access) : access :=
  match a with ReadOnly => ReadOnly | _ => Settable end.

(** reflect.flag.mustBeAssignable *)
Definition mustBeAssignable (a : access) : option panic :=
  match a with
  | Settable => None
  | ReadOnly => Some PanicUnexportedField
  | Unaddressable => Some PanicUnaddressable
  end.

(** reflect.Value.Type *)
Definition Value_Type (v : option value) : outcome type :=
  match v with
  | None => Panic PanicTypeOfZeroValue
  | Some x => Return (typeOf x)
  end.

(** reflect's [directlyAssignable]: a value of type [V] can be stored as it
    is in a location of type [T] when the types are identical, when [V] is a
    bidirectional channel type with the element type of the channel type [T],
    or when the types have identical underlying types and one of them has no
    name; among the types of the embedding the last is the case of a struct
    type and the struct type literal with the same fields. *)
Definition directlyAssignable (T V : type) : bool :=
  type_eqb T V ||
  match T, V with
  | TChan _ e1, TChan BothDir e2 => type_eqb e1 e2
  | TStruct n1 fs1, TStruct n2 fs2 =>
      (String.eqb n1 "" || String.eqb n2 "") &&
      type_eqb (TStruct "" fs1) (TStruct "" fs2)
  | _, _ => false
  end.

(** The value as a value of the type [T] it is assignable to. *)
Definition assignedTo (T : type) (x : value) : value :=
  match T, x with
  | TChan d _, VChan _ e made => VChan d e made
  | TStruct name _, VStruct _ fs => VStruct name fs
  | _, _ => x
  end.

(** reflect.Value.Set: the location must be settable and the value
    assignable to its type; the value then replaces the content of the
    location. A location of interface kind boxes the value: the one value
    the package stores in such a location was taken out of an interface of
    the type of the location, so that it implements it. *)
Definition Value_Set (a : access) (fv x : value) : value * status :=
  match mustBeAssignable a with
  | Some p => (fv, Panicked p)
  | None =>
      match fv with
      | VInterface _ => (VInterface (Some x), Success)
      | _ =>
          if directlyAssignable (typeOf fv) (typeOf x)
          then (assignedTo (typeOf fv) x, Success)
          else (fv, Panicked (PanicNotAssignable (typeOf x) (typeOf fv)))
      end
  end.

(** The loop [for fv.Kind() == reflect.Ptr] below a pointer that has just
    been set to [reflect.New]: every further pointer is nil and allocated. *)
Fixpoint derefNew (t : type) (k : value -> value * status) : value * status :=
  match t with
  | TPtr e => let '(x, st) := derefNew e k in (VPtr e (Some x), st)
  | _ => k (zero t)
  end.

(** The loop [for fv.Kind() == reflect.Ptr]: follow the pointers, allocating
    the nil ones, and continue with the value they lead to. *)
Fixpoint deref (a : access) (fv : value)
    (k : access -> value -> value * status) : value * status :=
  match fv with
  | VPtr e (Some x) =>
      let '(x', st) := deref (Elem_access a) x k in (VPtr e (Some x'), st)
  | VPtr e None =>
      match mustBeAssignable a with
      | Some p => (fv, Panicked p)
      | None => let '(x', st) := derefNew e (k Settable) in (VPtr e (Some x'), st)
      end
  | _ => k a fv
  end.

(** reflect.Value.FieldByName on the fields of a struct without embedded
    fields: continue with the field named [sk], [None] when there is none. *)
Fixpoint withField (sk : string) (fs : list (string * value))
    (k : value -> value * status) : option (list (string * value) * status) :=
  match fs with
  | [] => None
  | f :: fs' =>
      if String.eqb (fst f) sk
      then let '(x, st) := k (snd f) in Some ((fst f, x) :: fs', st)
      else '(fs'', st) ← withField sk fs' k; Some (f :: fs'', st)
  end.

(** The kinds of the first case of the switch on [rmv.Kind()]. *)
Definition scalarKind (k : Kind) : bool :=
  match k with
  | Int | Int8 | Int16 | Int32 | Int64
  | Uint | Uint8 | Uint16 | Uint32 | Uint64
  | Float32 | Float64 | Bool | String => true
  | _ => false
  end.

(** reflect.Value.Bytes of a value of kind Slice with elements of kind Uint8 *)
Definition Value_Bytes (elems : option (list value)) : list byte :=
  match elems with
  | None => []
  | Some l =>
      map (fun v => match v with
                    | VUint U8 n | VDefined _ (VUint U8 n) =>
                        default Byte.x00 (Byte.of_N (Z.to_N n))
                    | _ => Byte.x00
                    end) l
  end.

Section Unmarshal.

Variable env : Env.

(** reflect.Value.Field: a field is read-only when its name is not exported,
    and when the struct is. *)
Definition Field_access (a : access) (name : string) : access :=
  if IsExported env name then a else ReadOnly.

(** The loop over [skeys]: resolve the field the key names, then run [k] on
    it. *)
Fixpoint walk (skeys : list string) (a : access) (fv : value)
    (k : access -> value -> value * status) : value * status :=
  match skeys with
  | [] => k a fv
  | sk :: skeys' =>
      deref a fv (fun a fv =>
        match fv with
        | VStruct name fs =>
            match withField sk fs (fun x => walk skeys' (Field_access a sk) x k) with
            | Some (fs', st) => (VStruct name fs', st)
            | None =>
                (* fv is the zero Value by now, and the message asks for
                   fv.Type() *)
                (fv, match Value_Type None with
                     | Return t => Failure (ErrFieldNotFound sk t)
                     | Panic p => Panicked p
                     end)
            end
        | _ => (fv, Panicked (PanicFieldByName (Type_Kind (typeOf fv))))
        end)
  end.

(** The switch on [rmv.Kind()], at the field [fv] the key [mk] resolved to. *)
Definition assign (mk : string) (mv : option value) (a : access) (fv : value)
  : value * status :=
  match mv with
  | None => (fv, Success)
  | Some rmv =>
      let vk := Type_Kind (typeOf rmv) in
      let unmatched := (fv, Failure (ErrInvalidData (UnmatchedValueKind vk))) in
      if scalarKind vk then
        if negb (bool_decide (vk = Type_Kind (typeOf fv)))
        then (fv, Failure (ErrInvalidData (KindMismatch mk (Type_Kind (typeOf fv)) vk)))
        else Value_Set a fv rmv
      else
        match rmv with
        | VSlice e elems =>
            if bool_decide (Type_Kind e = Uint8) then
              match BytesToType env (Value_Bytes elems) (typeOf fv) with
              | Panic p => (fv, Panicked p)
              | Return (_, Some err) => (fv, Failure err)
              | Return (Some iv, None) => Value_Set a fv iv
              | Return (None, None) => (fv, Success)
              end
            else unmatched
        | _ => unmatched
        end
  end.

(** The loop [for mk, mv := range m], on the entries in iteration order. *)
Fixpoint entries (m : list (string * option value)) (a : access) (rv : value)
  : value * status :=
  match m with
  | [] => (rv, Success)
  | kv :: m' =>
      let '(rv', st) := walk (Split (fst kv) Separator) a rv (assign (fst kv) (snd kv)) in
      match st with
      | Success => entries m' a rv'
      | _ => (rv', st)
      end
  end.

(** The loop [for rv.Kind() == reflect.Ptr && rv.IsValid()] and the check
    that follows it. *)
Fixpoint indirected (a : access) (v : value)
    (k : access -> value -> value * status) : value * status :=
  match v with
  | VPtr e (Some x) =>
      let '(x', st) := indirected (Elem_access a) x k in (VPtr e (Some x'), st)
  | VPtr e None => (v, Failure (ErrInvalidData IndirectedNil))
  | _ => k a v
  end.

(** [UnmarshalMap m v]: the target [v] as the call leaves it, and how the
    call ended. [reflect.ValueOf(v)] is not addressable. *)
Definition UnmarshalMap (m : list (string * option value)) (v : option value)
  : option value * status :=
  match v with
  | None =>
      if decide (length m = 0%nat) then (v, Success)
      else (v, Failure (ErrInvalidData IndirectedNil))
  | Some x =>
      match mapUnmarshaler env (typeOf x) with
      | Some mu =>
          let '(x', err) := mu m x in
          (Some x', match err with None => Success | Some e => Failure e end)
      | None =>
          if decide (length m = 0%nat) then (v, Success)
          else let '(x', st) := indirected Unaddressable x (entries m) in (Some x', st)
      end
  end.

End Unmarshal.

(** ** UnmarshalByteMap *)

(** A byte as an element of a [[]byte], and a [[]byte] as a value ([None]
    is the nil slice). *)
Definition byteValue (b : byte) : value := VUint U8 (byteZ b).

Definition bytesValue (bs : option (list byte)) : value :=
  VSlice (TUint U8) (map byteValue <$> bs).

(** [UnmarshalByteMap bm v]. The capability check [v.(ByteMapUnmarshaler)]
    is the lookup [byteMapUnmarshaler] in the method set of the dynamic type
    of [v]. The loop that copies [bm] into [im] keeps keys and values, each
    byte slice held in an [interface{}]; [bm] lists the entries in the order
    in which [UnmarshalMap] then ranges over [im]. *)
Definition UnmarshalByteMap (env : Env)
    (byteMapUnmarshaler :
       type -> option (list (string * option (list byte)) -> value
                       -> value * option error))
    (bm : list (string * option (list byte))) (v : option value)
  : option value * status :=
  let generic :=
    if decide (length bm = 0%nat) then (v, Success)
    else UnmarshalMap env (map (fun kv => (fst kv, Some (bytesValue (snd kv)))) bm) v in
  match v with
  | Some x =>
      match byteMapUnmarshaler (typeOf x) with
      | Some mm =>
          let '(x', err) := mm bm x in
          (Some x', match err with None => Success | Some e => Failure e end)
      | None => generic
      end
  | None => generic
  end.

(** ** Notions used by the statements *)

(** The byte order a fixed-width encoding tag selects. *)
Definition fixedOrder (tag : byte) : option ByteOrder :=
  if bool_decide (tag = BigEndianEncoding) then Some BigEndian
  else if bool_decide (tag = LittleEndianEncoding) then Some LittleEndian
  else None.

(** The encoding tags the decoder knows. *)
Definition knownEncodings : list byte :=
  [ZeroEncoding; BigEndianEncoding; LittleEndianEncoding; JSONEncoding;
   ProtoEncoding; MsgPackEncoding; GobEncoding].

(** The integer types whose width is the platform's: they are read through
    a 64-bit intermediate. *)
Definition platformInt (t : type) : bool :=
  match t with TInt I | TUint U | TUint Uptr => true | _ => false end.

(** The types of the kinds Int, Uint and Uintptr: the platform integers and
    the types defined from them. *)
Definition platformKind (t : type) : bool :=
  match Type_Kind t with Int | Uint | Uintptr => true | _ => false end.

(** The integer types whose width is part of their name. *)
Definition sizedInt (t : type) : bool :=
  match t with
  | TInt I8 | TInt I16 | TInt I32 | TInt I64
  | TUint U8 | TUint U16 | TUint U32 | TUint U64 => true
  | _ => false
  end.


(** The number of elements the fixed-width decode gives a slice of elements
    of type [e]. *)
Definition sliceCount (env : Env) (e : type) (payload : list byte) : nat :=
  Z.to_nat (Z.of_nat (length payload) / Size env e).

(** The number of payload bytes the fixed-width decode of a target of type
    [typ] asks for: the whole payload for a string, eight bytes for an
    integer of the platform's width, be it behind pointers, the encoded size
    of its elements for a slice, and the encoded size of any other type that
    has one. *)
Definition fixedWidth (env : Env) (typ : type) (payload : list byte) : option nat :=
  match Type_Kind (indirect typ) with
  | String => Some (length payload)
  | Int | Uint | Uintptr => Some 8%nat
  | _ =>
      match typ with
      | TSlice e => s ← sizeof e; Some (s * sliceCount env e payload)%nat
      | _ => sizeof typ
      end
  end.

(** A signed, respectively unsigned, integer fits in [bits] bits. *)
Definition fitsInt (bits x : Z) : Prop := - 2 ^ (bits - 1) <= x < 2 ^ (bits - 1).
Definition fitsUint (bits x : Z) : Prop := 0 <= x < 2 ^ bits.

(** The value a platform integer target holds once [x] is stored in it. *)
Definition platformValue (t : type) (x : Z) : value :=
  match t with TInt k => VInt k x | TUint k => VUint k x | _ => zero t end.

(** The 64-bit intermediate an integer of the platform's width is decoded
    into. *)
Definition intermediate (bo : ByteOrder) (t : type) (payload : list byte) : Z :=
  match Type_Kind t with
  | Int => toSigned 64 (orderUint bo payload)
  | _ => orderUint bo payload
  end.

(** The integer a target of the platform's width can hold. *)
Definition fits (env : Env) (t : type) (x : Z) : Prop :=
  match Type_Kind t with
  | Int => fitsInt (Size env t * 8) x
  | _ => fitsUint (Size env t * 8) x
  end.

(** The overflow check [decodeFixed] applies to such a target. *)
Definition overflows (env : Env) (t : type) (x : Z) : bool :=
  match Type_Kind t with
  | Int => OverflowInt env t x
  | _ => OverflowUint env t x
  end.

(** Whether the fixed-width decode of a target of type [typ] makes
    [binary.Read] store into a value reached through an unexported field,
    which panics. *)
Definition readsUnexported (env : Env) (typ : type) (payload : list byte) : bool :=
  match Type_Kind (indirect typ) with
  | String | Int | Uint | Uintptr => false
  | _ =>
      match typ with
      | TSlice e =>
          negb (sliceCount env e payload =? 0)%nat && setsReadOnly env false e
      | _ => setsReadOnly env false typ
      end
  end.

(** The instance a fixed-width decode yields from a payload that holds at
    least the bytes it asks for: the text, the integer, the elements or the
    value these bytes encode, at the end of the pointers of the target. *)
Definition fixedInstance (env : Env) (bo : ByteOrder) (typ : type)
    (payload : list byte) : value :=
  let it := indirect typ in
  match Type_Kind it with
  | String => chain typ (SetString it payload)
  | Int => chain typ (SetInt it (intermediate bo it (take 8 payload)))
  | Uint | Uintptr => chain typ (SetUint it (intermediate bo it (take 8 payload)))
  | _ =>
      match typ with
      | TSlice e =>
          let n := sliceCount env e payload in
          VSlice e (Some (decodeElems env bo e n
                            (take (default 0%nat (sizeof e) * n) payload)))
      | _ => readValue env bo typ (take (default 0%nat (sizeof typ)) payload)
      end
  end.

(** What a call of BytesToType that returns gives, step by step, in the
    words of the claim about its errors: the empty-input check, the version
    check, the Empty tag, the encoding dispatch, the fixed-width read with
    its overflow and leftover checks, and the library decoders, each with the
    error it reports and the value that comes with it. *)
Inductive stepResult (env : Env)
  : list byte -> type -> option value -> option error -> Prop :=
| step_empty typ :
    stepResult env [] typ None (Some (ErrInvalidData EmptyByteSlice))
| step_version ver rest typ :
    ver <> DefaultVersion env ->
    stepResult env (ver :: rest) typ None (Some (ErrUnsupportedVersion ver))
| step_absent payload typ :
    IsNillableType typ = true ->
    stepResult env (DefaultVersion env :: ZeroEncoding :: payload) typ None None
| step_zero payload typ :
    IsNillableType typ = false ->
    stepResult env (DefaultVersion env :: ZeroEncoding :: payload) typ
      (Some (zero typ)) None
| step_unmatched tag payload typ :
    tag ∉ knownEncodings ->
    stepResult env (DefaultVersion env :: tag :: payload) typ
      None (Some (ErrInvalidData UnmatchedEncoding))
| step_invalid_type tag bo payload typ :
    fixedOrder tag = Some bo ->
    fixedWidth env typ payload = None ->
    stepResult env (DefaultVersion env :: tag :: payload) typ
      None (Some (ErrBinaryInvalidType (TPtr typ)))
| step_nothing_read tag bo typ w :
    fixedOrder tag = Some bo ->
    fixedWidth env typ [] = Some w -> w <> 0%nat ->
    stepResult env [DefaultVersion env; tag] typ
      (Some (chain typ (zero (indirect typ)))) None
| step_short_read tag bo payload typ w :
    fixedOrder tag = Some bo ->
    fixedWidth env typ payload = Some w ->
    (0 < length payload < w)%nat ->
    stepResult env (DefaultVersion env :: tag :: payload) typ
      None (Some ErrUnexpectedEOF)
| step_overflow tag bo payload typ :
    fixedOrder tag = Some bo ->
    platformKind (indirect typ) = true ->
    (8 <= length payload)%nat ->
    let x := intermediate bo (indirect typ) (take 8 payload) in
    overflows env (indirect typ) x = true ->
    stepResult env (DefaultVersion env :: tag :: payload) typ
      None (Some (ErrOverflow x (indirect typ)))
| step_decoded tag bo payload typ w :
    fixedOrder tag = Some bo ->
    fixedWidth env typ payload = Some w ->
    length payload = w ->
    (platformKind (indirect typ) = true ->
     overflows env (indirect typ) (intermediate bo (indirect typ) (take 8 payload))
     = false) ->
    stepResult env (DefaultVersion env :: tag :: payload) typ
      (Some (fixedInstance env bo typ payload)) None
| step_leftover tag bo payload typ w :
    fixedOrder tag = Some bo ->
    fixedWidth env typ payload = Some w ->
    (w < length payload)%nat ->
    (platformKind (indirect typ) = true ->
     overflows env (indirect typ) (intermediate bo (indirect typ) (take 8 payload))
     = false) ->
    stepResult env (DefaultVersion env :: tag :: payload) typ
      (Some (fixedInstance env bo typ payload)) (Some ErrUnreadData)
| step_json payload typ iv ev' msg :
    initial (indirect typ) = Return iv ->
    jsonDecode env payload (chain typ iv) = (ev', msg) ->
    stepResult env (DefaultVersion env :: JSONEncoding :: payload) typ
      (Value_Interface ev') (ErrExternal <$> msg)
| step_not_proto payload typ :
    implementsProto env typ = false ->
    implementsProto env (TPtr typ) = false ->
    stepResult env (DefaultVersion env :: ProtoEncoding :: payload) typ
      None (Some (ErrNotProto typ (TPtr typ)))
| step_proto payload typ iv ev' msg :
    initial (indirect typ) = Return iv ->
    let rt := if implementsProto env typ then typ else TPtr typ in
    implementsProto env rt = true ->
    protoUnmarshal env rt payload (chain typ iv) = (ev', msg) ->
    stepResult env (DefaultVersion env :: ProtoEncoding :: payload) typ
      (Value_Interface ev') (ErrExternal <$> msg)
| step_msgp_leftover payload typ iv unread ev' msg :
    initial (indirect typ) = Return iv ->
    let rt := if implementsMsgp env typ then typ else TPtr typ in
    implementsMsgp env rt = true ->
    msgpUnmarshalMsg env rt payload (chain typ iv) = (unread, ev', msg) ->
    unread <> [] ->
    stepResult env (DefaultVersion env :: MsgPackEncoding :: payload) typ
      None (Some (ErrInvalidData UnmarshaledDataLeft))
| step_msgp payload typ iv ev' msg :
    initial (indirect typ) = Return iv ->
    let rt := if implementsMsgp env typ then typ else TPtr typ in
    implementsMsgp env rt = true ->
    msgpUnmarshalMsg env rt payload (chain typ iv) = ([], ev', msg) ->
    stepResult env (DefaultVersion env :: MsgPackEncoding :: payload) typ
      (Value_Interface ev') (ErrExternal <$> msg)
| step_msgpack payload typ iv ev' msg :
    initial (indirect typ) = Return iv ->
    implementsMsgp env typ = false ->
    implementsMsgp env (TPtr typ) = false ->
    msgpackDecodeValue env payload (chain typ iv) = (ev', msg) ->
    stepResult env (DefaultVersion env :: MsgPackEncoding :: payload) typ
      (Value_Interface ev') (ErrExternal <$> msg)
| step_gob payload typ iv ev' msg :
    initial (indirect typ) = Return iv ->
    gobDecodeValue env payload (chain typ iv) = (ev', msg) ->
    stepResult env (DefaultVersion env :: GobEncoding :: payload) typ
      (Value_Interface ev') (ErrExternal <$> msg).

(** The field a path of segments resolves to, read through the pointers on
    the way (a nil pointer leads to the zero value that would be allocated). *)
Fixpoint pointee (v : value) : value :=
  match v with
  | VPtr e (Some x) => pointee x
  | VPtr e None => zero (indirect e)
  | _ => v
  end.

Fixpoint fieldNamed (sk : string) (fs : list (string * value)) : option value :=
  match fs with
  | [] => None
  | f :: fs' => if String.eqb (fst f) sk then Some (snd f) else fieldNamed sk fs'
  end.

Fixpoint resolve (skeys : list string) (fv : value) : option value :=
  match skeys with
  | [] => Some fv
  | sk :: skeys' =>
      match pointee fv with
      | VStruct _ fs => x ← fieldNamed sk fs; resolve skeys' x
      | _ => None
      end
  end.

(** The value at the end of the pointers of a value that [reflect] got with
    access [a], and the access to it: a nil pointer can only be followed
    where a new value can be stored in it. *)
Fixpoint pointeeAt (a : access) (v : value) : option (access * value) :=
  match v with
  | VPtr e (Some x) => pointeeAt (Elem_access a) x
  | VPtr e None =>
      match mustBeAssignable a with
      | None => Some (Settable, zero (indirect e))
      | Some _ => None
      end
  | _ => Some (a, v)
  end.

(** The field the loop over the segments gets to, and the access [reflect]
    gives to it. *)
Fixpoint locate (env : Env) (a : access) (skeys : list string) (fv : value)
  : option (access * value) :=
  match skeys with
  | [] => Some (a, fv)
  | sk :: skeys' =>
      match pointeeAt a fv with
      | Some (a', VStruct _ fs) =>
          x ← fieldNamed sk fs; locate env (Field_access env a' sk) skeys' x
      | _ => None
      end
  end.

(** The target of the spec's example: a struct with a field [a] that is a
    struct without a field [b]. *)
Definition exampleInner : type := TStruct "Inner" [("x", TInt I)].

Definition exampleTarget : type := TStruct "Target" [("a", exampleInner); ("n", TUint U8)].

(** A target with exported fields, and one with a field of a defined type. *)
Definition exportedInner : type := TStruct "Inner" [("X", TInt I)].

Definition exportedTarget : type :=
  TStruct "Target" [("A", exportedInner); ("N", TUint U8)].

Definition levelTarget : type :=
  TStruct "Reading" [("Level", TDefined "Level" (BUint U8))].

(** A target that holds a pointer in a field that is not exported. *)
Definition hiddenTarget : type := TStruct "Hidden" [("p", TPtr exportedInner)].

(** The target once the value at the end of its pointers is replaced. *)
Fixpoint repointed (fv x' : value) : value :=
  match fv with
  | VPtr e (Some x) => VPtr e (Some (repointed x x'))
  | VPtr e None => VPtr e (Some (chain e x'))
  | _ => x'
  end.

(** The fields of a struct once the field [sk] is replaced. *)
Fixpoint setField (sk : string) (fs : list (string * value)) (x' : value)
  : list (string * value) :=
  match fs with
  | [] => []
  | f :: fs' =>
      if String.eqb (fst f) sk then (fst f, x') :: fs'
      else f :: setField sk fs' x'
  end.

(** strings.Join *)
Fixpoint Join (l : list string) (sep : string) : string :=
  match l with
  | [] => EmptyString
  | s :: l' =>
      match l' with
      | [] => s
      | _ => String.append s (String.append sep (Join l' sep))
      end
  end.

(** Every entry of [l] is bound in [out] at the path of its key. *)
Definition bindsAll {A} (l : list (string * nested A))
    (out : gmap string (nested A)) : Prop :=
  forall k v, (k, v) ∈ l -> lookupPath (Split k Separator) (Mapping out) = Some v.

(** Whatever is bound in [out] is at or below the path of a key of [l], or
    is a mapping on the way to one. *)
Definition bindsOnly {A} (l : list (string * nested A))
    (out : gmap string (nested A)) : Prop :=
  forall q x, q <> [] -> lookupPath q (Mapping out) = Some x ->
    exists k v, (k, v) ∈ l /\
      (Split k Separator `prefix_of` q \/
       (q `prefix_of` Split k Separator /\ exists sm, x = Mapping sm)).

(** A flattened mapping with collision-free keys, in one iteration order. *)
Definition exampleFlat : list (string * nested nat) :=
  [("d", Leaf 3%nat); ("a.b", Leaf 1%nat); ("a.c", Leaf 2%nat)].

(** An integer value of the integer type [t], within the range of [t]. *)
Definition integerInRange (env : Env) (t : type) (v : value) : Prop :=
  match t, v with
  | TInt k, VInt k' n => k = k' /\ fitsInt (Size env t * 8) n
  | TUint k, VUint k' n => k = k' /\ fitsUint (Size env t * 8) n
  | _, _ => False
  end.

(** Two segment paths of which neither is a prefix of the other. *)
Definition incomparable (p q : list string) : Prop :=
  ~ p `prefix_of` q /\ ~ q `prefix_of` p.

(** The paths of the keys of the entries are pairwise incomparable. *)
Fixpoint apartKeys {V} (m : list (string * V)) : Prop :=
  match m with
  | [] => True
  | kv :: m' =>
      Forall (fun kv' =>
                incomparable (Split (fst kv) Separator) (Split (fst kv') Separator)) m' /\
      apartKeys m'
  end.

(** A chain of pointers that ends in a nil pointer. *)
Fixpoint endsNil (v : value) : Prop :=
  match v with
  | VPtr _ None => True
  | VPtr _ (Some x) => endsNil x
  | _ => False
  end.

(** The field a path of segments leads to through struct fields alone,
    without a pointer on the way. *)
Fixpoint direct (skeys : list string) (fv : value) : option value :=
  match skeys with
  | [] => Some fv
  | sk :: skeys' =>
      match fv with
      | VStruct _ fs => x ← fieldNamed sk fs; direct skeys' x
      | _ => None
      end
  end.


(** A map of scalars for the target with exported fields. *)
Definition exampleScalars : list (string * option value) :=
  [("N", Some (VUint U8 7)); ("A.X", Some (VInt I 5))].




(** The mapping the inner loop of [Unflattened] moves to below the segment
    [sk] of [parent]: the one bound there, a fresh one when nothing is bound
    there; the type assertion panics on a value that is not a mapping, and
    the store that follows it panics in the nil mapping. *)
Definition child {A} (parent : gmap string (nested A)) (sk : string)
  : outcome (gmap string (nested A)) :=
  match parent !! sk with
  | None => Return ∅
  | Some (Mapping sm) => Return sm
  | Some (Leaf _) => Panic PanicNotAMap
  | Some NilMapping => Panic PanicNilMap
  end.

(** What a call returned, when it did not panic. *)
Definition returned {X} (r : outcome X) : option X :=
  match r with
  | Return x => Some x
  | Panic _ => None
  end.

(** ** Basic facts *)

Arguments sliceFrom : simpl never.
Arguments decodeFixed : simpl never.

Lemma sliceFrom_cons (x : byte) (l : list byte) : sliceFrom 1 (x :: l) = Return l.
Proof.
  unfold sliceFrom. case_decide as H; [done|]. simpl in H. lia.
Qed.

Lemma fixedOrder_tag tag bo :
  fixedOrder tag = Some bo ->
  (tag = BigEndianEncoding /\ bo = BigEndian) \/
  (tag = LittleEndianEncoding /\ bo = LittleEndian).
Proof.
  unfold fixedOrder. repeat case_bool_decide; naive_solver.
Qed.

(** With the supported version and a fixed-width tag, [BytesToType] is the
    allocation of the instance followed by [decodeFixed] on the payload. *)
Lemma BytesToType_fixed env tag bo payload typ :
  fixedOrder tag = Some bo ->
  BytesToType env (DefaultVersion env :: tag :: payload) typ
  = iv ← initial (indirect typ); decodeFixed env bo typ iv payload.
Proof.
  intros [[-> ->]|[-> ->]]%fixedOrder_tag; unfold BytesToType;
    rewrite bool_decide_true by done; reflexivity.
Qed.

Lemma nonNillable_initial typ :
  IsNillableType typ = false ->
  indirect typ = typ /\ initial typ = Return (zero typ) /\
  Value_Interface (zero typ) = Some (zero typ).
Proof. destruct typ; simpl; done. Qed.

Lemma ReadFull_short (payload : list byte) w :
  (length payload < w)%nat ->
  ReadFull payload w
  = if decide (length payload = 0%nat) then ReadEOF else ReadUnexpectedEOF.
Proof.
  intros Hlt. unfold ReadFull. repeat case_decide; try reflexivity; lia.
Qed.

Lemma ReadFull_enough (payload : list byte) w :
  (w <= length payload)%nat ->
  ReadFull payload w = ReadOK (take w payload) (drop w payload).
Proof.
  intros Hle. unfold ReadFull. repeat case_decide; try reflexivity; try lia.
  subst w. by rewrite take_0, drop_0.
Qed.

Lemma ReadFull_ok (buf : list byte) n data rest :
  ReadFull buf n = ReadOK data rest ->
  data = take n buf /\ rest = drop n buf /\ length data = n /\ (n <= length buf)%nat.
Proof.
  unfold ReadFull. repeat case_decide; intros; simplify_eq.
  - rewrite take_0, drop_0. repeat split; simpl; lia.
  - rewrite length_take. repeat split; lia.
Qed.

Lemma ReadFull_all (payload : list byte) :
  ReadFull payload (length payload) = ReadOK payload [].
Proof.
  rewrite ReadFull_enough by lia. by rewrite take_ge, drop_ge by lia.
Qed.

Lemma ReadFull_cases (payload : list byte) w :
  ReadFull payload w =
    if decide (w <= length payload)%nat then ReadOK (take w payload) (drop w payload)
    else if decide (length payload = 0%nat) then ReadEOF else ReadUnexpectedEOF.
Proof.
  case_decide; [by apply ReadFull_enough|]. rewrite ReadFull_short by lia. done.
Qed.

(** ** The fixed-width decode, by the width it asks for *)

Lemma chain_boxed typ iv :
  (forall dyn, iv <> VInterface dyn) ->
  Value_Interface (chain typ iv) = Some (chain typ iv).
Proof.
  intros Hiv. destruct typ; simpl; try done; destruct iv; try done; by destruct (Hiv dyn).
Qed.

Lemma decodeValue_boxed env bo typ w data :
  sizeof typ = Some w ->
  Value_Interface (fst (decodeValue env bo typ data))
  = Some (fst (decodeValue env bo typ data)).
Proof.
  destruct typ as [ |[]|[]|[]|[]| | | | | | | | | | |? [ |[]|[]|[]|[]| ]];
    simpl; try discriminate; intros _; repeat case_match; reflexivity.
Qed.

Lemma readValue_boxed env bo typ w data :
  sizeof typ = Some w ->
  Value_Interface (readValue env bo typ data) = Some (readValue env bo typ data).
Proof.
  intros Hw. unfold readValue.
  destruct typ as [ | | |[]| | | | | | | | | | | | ]; try (by eapply decodeValue_boxed).
  destruct (binaryFastFloats env); [done|by eapply decodeValue_boxed].
Qed.

Lemma zero_boxed typ w :
  sizeof typ = Some w -> Value_Interface (zero typ) = Some (zero typ).
Proof. destruct typ; simpl; done. Qed.

Ltac read_cases :=
  rewrite ?ReadFull_all;
  try match goal with
      | |- context [ReadFull ?p ?n] =>
          let H := fresh "Hread" in
          destruct (ReadFull p n) as [data rest| |] eqn:H;
          [apply ReadFull_ok in H as (-> & -> & ? & ?)|..]
      end;
  cbn [Value_Interface]; try reflexivity.

Lemma decodeFixed_spec env bo typ iv payload :
  initial (indirect typ) = Return iv ->
  (forall e, indirect typ = TSlice e -> Size env e <> 0) ->
  decodeFixed env bo typ iv payload =
    match fixedWidth env typ payload with
    | None => Return (None, Some (ErrBinaryInvalidType (TPtr typ)))
    | Some w =>
        match ReadFull payload w with
        | ReadEOF => Return (Some (chain typ (zero (indirect typ))), None)
        | ReadUnexpectedEOF => Return (None, Some ErrUnexpectedEOF)
        | ReadOK data rest =>
            let x := intermediate bo (indirect typ) data in
            if platformKind (indirect typ) && overflows env (indirect typ) x
            then Return (None, Some (ErrOverflow x (indirect typ)))
            else if readsUnexported env typ payload then Panic PanicUnexportedField
            else Return (Some (fixedInstance env bo typ payload),
                         if decide (0 < length rest)%nat then Some ErrUnreadData
                         else None)
        end
    end.
Proof.
  intros Hinit Hsize.
  unfold decodeFixed, fixedWidth, readsUnexported, fixedInstance, finish,
    platformKind, overflows, intermediate, sliceCount.
  destruct typ as [ |k|k|k|k| | |n e|d e| | |k e|t|e|name fs
                   |name [ |[]|[]|[]|[]| ]].
  13: { (* a pointer *)
    cbn [indirect chain] in *.
    destruct (indirect t) as [ |[]|[]|[]|[]| | |n e|d e| | |k e|t'|e|name fs
                              |name [ |[]|[]|[]|[]| ]] eqn:Hit;
      cbn [initial Type_Kind ikind_Kind ukind_Kind fkind_Kind ckind_Kind basic_Kind
           mbind outcome_bind option_bind sizeof fixedSize andb] in *;
      simplify_eq; try reflexivity.
    all: try (rewrite decide_False by (by apply Hsize); reflexivity).
    all: read_cases. }
  all: cbn [indirect chain initial Type_Kind ikind_Kind ukind_Kind fkind_Kind
            ckind_Kind basic_Kind mbind outcome_bind andb] in *.
  all: try (destruct k); try (destruct d).
  all: cbn [initial Type_Kind ikind_Kind ukind_Kind fkind_Kind ckind_Kind basic_Kind
            mbind outcome_bind andb] in *; simplify_eq.
  all: try (match goal with
            | |- context [sizeof ?T] =>
                destruct (sizeof T) as [w|] eqn:Hw; [|reflexivity];
                cbn [default]; read_cases;
                rewrite ?(zero_boxed _ w), ?(readValue_boxed _ _ _ w) by done;
                reflexivity
            end).
  all: read_cases.
  (* a slice *)
  rewrite decide_False by (by apply Hsize). cbn [mbind outcome_bind].
  destruct (sizeof e) as [s|] eqn:Hs; [|reflexivity].
  cbn [mbind option_bind default]. rewrite length_replicate.
  set (n := Z.to_nat (Z.of_nat (length payload) `div` Size env e)).
  destruct (ReadFull payload (s * n)) as [data rest| |] eqn:Hread.
  - apply ReadFull_ok in Hread as (-> & -> & _ & _). reflexivity.
  - exfalso. unfold ReadFull in Hread. repeat case_decide; simplify_eq.
    destruct payload; [|done]. subst n. simpl in *. rewrite Zdiv_0_l in *. simpl in *. lia.
  - reflexivity.
Qed.

Lemma decodeFixed_zero_size env bo typ iv payload e :
  indirect typ = TSlice e -> Size env e = 0 ->
  decodeFixed env bo typ iv payload = Panic PanicDivideByZero.
Proof. intros Hit Hsz. unfold decodeFixed. rewrite Hit. by rewrite decide_True. Qed.


(** What a fixed-width envelope gives when the call returns. *)
Lemma BytesToType_fixed_returns env tag bo typ payload r :
  fixedOrder tag = Some bo ->
  BytesToType env (DefaultVersion env :: tag :: payload) typ = Return r ->
  (exists iv, initial (indirect typ) = Return iv) /\
  (forall e, indirect typ = TSlice e -> Size env e <> 0) /\
  match fixedWidth env typ payload with
  | None => r = (None, Some (ErrBinaryInvalidType (TPtr typ)))
  | Some w =>
      if decide (w <= length payload)%nat then
        let x := intermediate bo (indirect typ) (take 8 payload) in
        if platformKind (indirect typ) && overflows env (indirect typ) x
        then r = (None, Some (ErrOverflow x (indirect typ)))
        else readsUnexported env typ payload = false /\
             r = (Some (fixedInstance env bo typ payload),
                  if decide (w < length payload)%nat then Some ErrUnreadData else None)
      else if decide (length payload = 0%nat)
      then r = (Some (chain typ (zero (indirect typ))), None)
      else r = (None, Some ErrUnexpectedEOF)
  end.
Proof.
  intros Htag. rewrite (BytesToType_fixed _ _ bo) by done.
  destruct (initial (indirect typ)) as [iv|p] eqn:Hinit; [|done].
  cbn [mbind outcome_bind]. intros Hret.
  assert (forall e, indirect typ = TSlice e -> Size env e <> 0) as Hsize.
  { intros e He Hz. by rewrite (decodeFixed_zero_size _ _ _ _ _ e) in Hret. }
  split; [by eexists|]. split; [done|].
  rewrite decodeFixed_spec in Hret by done.
  destruct (fixedWidth env typ payload) as [w|] eqn:Hw; [|by simplify_eq].
  rewrite ReadFull_cases in Hret. case_decide as Hle.
  - cbv zeta in *.
    assert (platformKind (indirect typ) = true -> w = 8%nat) as Hplat.
    { unfold platformKind, fixedWidth in *.
      destruct (Type_Kind (indirect typ)); intros; simplify_eq; done. }
    destruct (platformKind (indirect typ)) eqn:Hp; cbn [andb] in *.
    + rewrite (Hplat eq_refl) in *.
      destruct (overflows env (indirect typ) _); [by simplify_eq|].
      destruct (readsUnexported env typ payload); [done|]. split; [done|].
      simplify_eq. rewrite length_drop. f_equal. repeat case_decide; try done; lia.
    + destruct (readsUnexported env typ payload); [done|]. split; [done|].
      simplify_eq. rewrite length_drop. f_equal. repeat case_decide; try done; lia.
  - case_decide; by simplify_eq.
Qed.

(** ** Byte strings as integers, and the overflow checks *)

Lemma byteZ_bound (b : byte) : 0 <= byteZ b < 256.
Proof. unfold byteZ. pose proof (Byte.to_N_bounded b). lia. Qed.

Lemma beUint_acc (bs : list byte) (acc : Z) :
  fold_left (fun acc b => acc * 256 + byteZ b) bs acc
  = acc * 256 ^ Z.of_nat (length bs) + beUint bs.
Proof.
  unfold beUint. revert acc.
  induction bs as [|b bs IH]; intros acc; simpl fold_left.
  - simpl. lia.
  - rewrite IH, (IH (0 * 256 + byteZ b)).
    replace (Z.of_nat (length (b :: bs))) with (Z.succ (Z.of_nat (length bs)))
      by (simpl; lia).
    rewrite Z.pow_succ_r by lia. ring.
Qed.

Lemma beUint_bound (bs : list byte) : 0 <= beUint bs < 256 ^ Z.of_nat (length bs).
Proof.
  induction bs as [|b bs IH].
  - unfold beUint. simpl. lia.
  - unfold beUint. simpl fold_left. rewrite beUint_acc.
    replace (Z.of_nat (length (b :: bs))) with (Z.succ (Z.of_nat (length bs)))
      by (simpl; lia).
    rewrite Z.pow_succ_r by lia.
    pose proof (byteZ_bound b). nia.
Qed.

Lemma orderUint_bound (bo : ByteOrder) (bs : list byte) :
  0 <= orderUint bo bs < 256 ^ Z.of_nat (length bs).
Proof.
  destruct bo; simpl.
  - apply beUint_bound.
  - rewrite <- (length_rev bs). apply beUint_bound.
Qed.

Lemma toSigned_64_range (x : Z) : 0 <= x < 2 ^ 64 -> fitsInt 64 (toSigned 64 x).
Proof. unfold fitsInt, toSigned. intros H. case_match; lia. Qed.

Lemma OverflowInt_fits env t x :
  Size env t = 4 \/ Size env t = 8 ->
  fitsInt 64 x ->
  OverflowInt env t x = false <-> fitsInt (Size env t * 8) x.
Proof.
  unfold OverflowInt, fitsInt, toSigned, wrap64.
  intros [-> | ->] Hx; rewrite negb_false_iff, Z.eqb_eq.
  - change (64 - 4 * 8) with 32. rewrite Z.shiftl_mul_pow2, Z.shiftr_div_pow2 by lia.
    change (2 ^ 64) with (2 ^ 32 * 2 ^ 32).
    rewrite Z.mul_mod_distr_r by lia.
    pose proof (Z.mod_pos_bound x (2 ^ 32) ltac:(lia)) as Hm.
    pose proof (Z.div_mod x (2 ^ 32) ltac:(lia)) as Hd.
    case_match eqn:Hlt.
    + apply Z.ltb_lt in Hlt. rewrite Z.div_mul by lia. lia.
    + apply Z.ltb_ge in Hlt.
      replace (x `mod` 2 ^ 32 * 2 ^ 32 - 2 ^ 32 * 2 ^ 32)
        with ((x `mod` 2 ^ 32 - 2 ^ 32) * 2 ^ 32) by ring.
      rewrite Z.div_mul by lia. lia.
  - change (64 - 8 * 8) with 0. rewrite Z.shiftl_0_r, Z.shiftr_0_r.
    pose proof (Z.mod_pos_bound x (2 ^ 64) ltac:(lia)) as Hm.
    pose proof (Z.div_mod x (2 ^ 64) ltac:(lia)) as Hd.
    case_match eqn:Hlt.
    + apply Z.ltb_lt in Hlt. lia.
    + apply Z.ltb_ge in Hlt. lia.
Qed.

Lemma OverflowUint_fits env t x :
  Size env t = 4 \/ Size env t = 8 ->
  fitsUint 64 x ->
  OverflowUint env t x = false <-> fitsUint (Size env t * 8) x.
Proof.
  unfold OverflowUint, fitsUint, wrap64.
  intros [-> | ->] Hx; rewrite negb_false_iff, Z.eqb_eq.
  - change (64 - 4 * 8) with 32. rewrite Z.shiftl_mul_pow2, Z.shiftr_div_pow2 by lia.
    change (2 ^ 64) with (2 ^ 32 * 2 ^ 32).
    rewrite Z.mul_mod_distr_r by lia.
    pose proof (Z.mod_pos_bound x (2 ^ 32) ltac:(lia)) as Hm.
    pose proof (Z.div_mod x (2 ^ 32) ltac:(lia)) as Hd.
    rewrite Z.div_mul by lia. lia.
  - change (64 - 8 * 8) with 0. rewrite Z.shiftl_0_r, Z.shiftr_0_r.
    rewrite Z.mod_small by lia. lia.
Qed.

Lemma intermediate_range bo t (payload : list byte) :
  length payload = 8%nat ->
  match Type_Kind t with
  | Int => fitsInt 64 (intermediate bo t payload)
  | _ => fitsUint 64 (intermediate bo t payload)
  end.
Proof.
  intros Hlen. pose proof (orderUint_bound bo payload) as Hb.
  rewrite Hlen in Hb. change (256 ^ Z.of_nat 8) with (2 ^ 64) in Hb.
  unfold intermediate. destruct (Type_Kind t); try exact Hb.
  by apply toSigned_64_range.
Qed.

Lemma overflows_fits env bo t (payload : list byte) :
  Size env t = 4 \/ Size env t = 8 ->
  length payload = 8%nat ->
  overflows env t (intermediate bo t payload) = false
  <-> fits env t (intermediate bo t payload).
Proof.
  intros Hsz Hlen. pose proof (intermediate_range bo t payload Hlen) as Hr.
  unfold overflows, fits. destruct (Type_Kind t);
    first [by apply OverflowInt_fits | by apply OverflowUint_fits].
Qed.

(** ** Theorems: BytesToType *)

(** C3. For every input of BytesToType: an empty byte slice fails with
    InvalidData, and a first byte other than the supported version constant
    fails with the unsupported-version error, whatever the encoding tag, the
    payload and the target type are. *)
Theorem BytesToType_empty_or_unsupported_version env (b : list byte) (typ : type) :
  (b = [] ->
   BytesToType env b typ = Return (None, Some (ErrInvalidData EmptyByteSlice))) /\
  (forall ver rest, b = ver :: rest -> ver <> DefaultVersion env ->
   BytesToType env b typ = Return (None, Some (ErrUnsupportedVersion ver))).
Proof.
  split.
  - intros ->. reflexivity.
  - intros ver rest -> Hver. unfold BytesToType.
    rewrite bool_decide_false by done. reflexivity.
Qed.

Lemma BytesToType_empty_or_unsupported_version_witness :
  BytesToType amd64 [] TString = Return (None, Some (ErrInvalidData EmptyByteSlice)) /\
  BytesToType amd64 [Byte.x02; Byte.x01; Byte.xff] (TUint U8)
  = Return (None, Some (ErrUnsupportedVersion Byte.x02)).
Proof.
  split.
  - apply (BytesToType_empty_or_unsupported_version amd64 [] TString). reflexivity.
  - apply (BytesToType_empty_or_unsupported_version amd64
             [Byte.x02; Byte.x01; Byte.xff] (TUint U8)) with (rest := [Byte.x01; Byte.xff]).
    + reflexivity.
    + discriminate.
Defined.

(** C4. For every Empty-tagged envelope with the supported version byte, a
    target of a nillable category (pointer, map, interface, chan, func,
    slice) yields explicit absence, no value and no error, and every other
    target yields the zero value of its type with no error. *)
Theorem BytesToType_empty_tag env (payload : list byte) (typ : type) :
  (IsNillableType typ = true <->
   Type_Kind typ ∈ [Ptr; Map; Interface; Chan; Func; Slice]) /\
  BytesToType env (DefaultVersion env :: ZeroEncoding :: payload) typ
  = if IsNillableType typ then Return (None, None)
    else Return (Some (zero typ), None).
Proof.
  split.
  - unfold IsNillableType, IsNillableKind.
    rewrite !orb_true_iff, !bool_decide_eq_true, !elem_of_cons, elem_of_nil.
    tauto.
  - unfold BytesToType. rewrite bool_decide_true by done. simpl.
    destruct (IsNillableType typ) eqn:Hnil; [done|].
    destruct (nonNillable_initial typ Hnil) as (-> & -> & Hbox).
    cbn [mbind outcome_bind]. by destruct typ.
Qed.

(** C5 (the code departs from it). An input that consists of the supported
    version byte alone does not decode with the Empty default: the second
    [b = b[1:]] slices an empty slice and panics, for every target type. *)
Theorem BytesToType_version_only_panics env (typ : type) :
  BytesToType env [DefaultVersion env] typ = Panic (PanicSliceBounds 1 0).
Proof.
  unfold BytesToType. rewrite bool_decide_true by done. reflexivity.
Qed.

(** ** The fixed-width decode of a scalar *)

Lemma BytesToType_fixed_spec env tag bo typ iv payload :
  fixedOrder tag = Some bo ->
  initial (indirect typ) = Return iv ->
  (forall e, indirect typ = TSlice e -> Size env e <> 0) ->
  BytesToType env (DefaultVersion env :: tag :: payload) typ =
    match fixedWidth env typ payload with
    | None => Return (None, Some (ErrBinaryInvalidType (TPtr typ)))
    | Some w =>
        match ReadFull payload w with
        | ReadEOF => Return (Some (chain typ (zero (indirect typ))), None)
        | ReadUnexpectedEOF => Return (None, Some ErrUnexpectedEOF)
        | ReadOK data rest =>
            let x := intermediate bo (indirect typ) data in
            if platformKind (indirect typ) && overflows env (indirect typ) x
            then Return (None, Some (ErrOverflow x (indirect typ)))
            else if readsUnexported env typ payload then Panic PanicUnexportedField
            else Return (Some (fixedInstance env bo typ payload),
                         if decide (0 < length rest)%nat then Some ErrUnreadData
                         else None)
        end
    end.
Proof.
  intros Htag Hinit Hsize. rewrite (BytesToType_fixed _ _ bo), Hinit by done.
  by apply decodeFixed_spec.
Qed.


Lemma fixedSize_sizeof t w : fixedSize t = Some w -> sizeof t = Some w.
Proof. destruct t; simpl; done. Qed.




Lemma fixedInstance_platformInt env bo typ payload :
  platformInt typ = true ->
  fixedInstance env bo typ payload
  = platformValue typ (intermediate bo typ (take 8 payload)).
Proof. by destruct typ as [ |[]|[]| | | | | | | | | | | | | ]. Qed.

Lemma fixedInstance_sizedInt env bo typ w payload :
  sizedInt typ = true -> fixedSize typ = Some w ->
  fixedInstance env bo typ payload = fst (decodeValue env bo typ (take w payload)).
Proof.
  destruct typ as [ |[]|[]| | | | | | | | | | | | | ]; try done;
    intros _ Hw; simpl in Hw; simplify_eq; reflexivity.
Qed.




(** ** Leftover bytes *)

Lemma platformKind_width env typ payload w :
  platformKind (indirect typ) = true ->
  fixedWidth env typ payload = Some w -> w = 8%nat.
Proof.
  unfold platformKind, fixedWidth.
  destruct (Type_Kind (indirect typ)); intros; simplify_eq; done.
Qed.

(** A target that has a width can be allocated. *)
Lemma fixedWidth_initial env typ payload w :
  fixedWidth env typ payload = Some w ->
  exists iv, initial (indirect typ) = Return iv.
Proof.
  unfold fixedWidth.
  destruct typ as [ | | | | | | | |[]| | | |t| | | ]; cbn [indirect];
    try (by (simpl; intros; simplify_eq; eexists)).
  destruct (indirect t) as [ | | | | | | | |[]| | | | | | |? [ |[]|[]|[]|[]| ]];
    simpl; intros; simplify_eq; by eexists.
Qed.

(** C2 (as amended). For every fixed-width envelope with the supported
    version byte whose target has a width (the whole payload for a string,
    eight bytes for an integer of the platform's width or a type defined from
    one, be it behind pointers, the encoded size of the elements that fit for
    a slice, the encoded size of any other target that has one), once that
    width has been consumed, unconsumed bytes left in the payload are refused
    with the unread-data error, which comes with the decoded value, unless
    the target is, or points to, an integer of the platform's width whose
    64-bit intermediate does not fit it: the overflow error is then returned
    before the leftover bytes are looked at. The slices of elements of size
    zero and the structs with a field that cannot be set, on which the decode
    panics, are left aside. *)
Theorem BytesToType_leftover_bytes env tag bo typ (payload : list byte) w :
  fixedOrder tag = Some bo ->
  fixedWidth env typ payload = Some w ->
  (w < length payload)%nat ->
  (forall e, typ = TSlice e -> Size env e <> 0) ->
  readsUnexported env typ payload = false ->
  (platformKind (indirect typ) = true ->
   Size env (indirect typ) = 4 \/ Size env (indirect typ) = 8) ->
  let x := intermediate bo (indirect typ) (take 8 payload) in
  (platformKind (indirect typ) = true /\ ~ fits env (indirect typ) x /\
   BytesToType env (DefaultVersion env :: tag :: payload) typ
   = Return (None, Some (ErrOverflow x (indirect typ)))) \/
  ((platformKind (indirect typ) = true -> fits env (indirect typ) x) /\
   BytesToType env (DefaultVersion env :: tag :: payload) typ
   = Return (Some (fixedInstance env bo typ payload), Some ErrUnreadData)).
Proof.
  intros Htag Hw Hlt Hslice Hro Hsz x.
  destruct (fixedWidth_initial env typ payload w Hw) as [iv Hinit].
  assert (forall e, indirect typ = TSlice e -> Size env e <> 0) as Hsize.
  { intros e He. apply Hslice. revert Hw He. unfold fixedWidth.
    destruct typ as [ | | | | | | | | | | | |t| | | ]; cbn [indirect];
      try (intros _ ?; by simplify_eq).
    intros Hw He. by rewrite He in Hw. }
  rewrite (BytesToType_fixed_spec _ _ bo _ iv), Hw by done.
  rewrite ReadFull_enough by lia. cbv zeta. rewrite Hro, length_drop.
  rewrite (decide_True (P := (0 < length payload - w)%nat)) by lia.
  destruct (platformKind (indirect typ)) eqn:Hp; cbn [andb]; [|right; by split].
  pose proof (platformKind_width env typ payload w Hp Hw) as ->. fold x.
  assert (length (take 8 payload) = 8%nat) as Hlen by (rewrite length_take; lia).
  pose proof (overflows_fits env bo (indirect typ) _ (Hsz eq_refl) Hlen) as Hov.
  fold x in Hov.
  destruct (overflows env (indirect typ) x).
  - left. split; [done|]. split; [|done]. intros Hfit. apply Hov in Hfit. done.
  - right. split; [intros _; by apply Hov|done].
Qed.

Lemma BytesToType_leftover_bytes_witness :
  BytesToType amd64
    [Byte.x01; Byte.x01; Byte.x00; Byte.x01; Byte.x00; Byte.x02] (TUint U16)
  = Return (Some (VUint U16 1), Some ErrUnreadData) /\
  BytesToType amd64
    [Byte.x01; Byte.x02; Byte.x07; Byte.x00; Byte.x00; Byte.x00; Byte.x00;
     Byte.x00; Byte.x00; Byte.x00; Byte.xff] (TPtr (TInt I))
  = Return (Some (VPtr (TInt I) (Some (VInt I 7))), Some ErrUnreadData).
Proof.
  split.
  - destruct (BytesToType_leftover_bytes amd64 Byte.x01 BigEndian (TUint U16)
                [Byte.x00; Byte.x01; Byte.x00; Byte.x02] 2)
      as [(Hp & _) | (_ & Hv)].
    + reflexivity.
    + reflexivity.
    + simpl. lia.
    + intros e He. discriminate He.
    + reflexivity.
    + intros Hp. discriminate Hp.
    + discriminate Hp.
    + exact Hv.
  - destruct (BytesToType_leftover_bytes amd64 Byte.x02 LittleEndian (TPtr (TInt I))
                [Byte.x07; Byte.x00; Byte.x00; Byte.x00; Byte.x00;
                 Byte.x00; Byte.x00; Byte.x00; Byte.xff] 8)
      as [(_ & Hno & _) | (_ & Hv)].
    + reflexivity.
    + reflexivity.
    + simpl. lia.
    + intros e He. discriminate He.
    + reflexivity.
    + intros _. right. reflexivity.
    + exfalso. apply Hno. unfold fits, fitsInt. vm_compute.
      split; [discriminate | reflexivity].
    + exact Hv.
Defined.

(** C2 as stated fails where [uint] is 32 bits wide: the nine-byte payload
    below leaves one byte unread once the eight bytes of the target have been
    consumed, and the call fails with the overflow error instead of the
    unread-data error. *)
Lemma BytesToType_overflow_before_leftover :
  BytesToType i386
    [Byte.x01; BigEndianEncoding; Byte.x00; Byte.x00; Byte.x00; Byte.x01;
     Byte.x00; Byte.x00; Byte.x00; Byte.x00; Byte.xff] (TUint U)
  = Return (None, Some (ErrOverflow 4294967296 (TUint U))).
Proof. reflexivity. Qed.

(** ** What comes with an error *)

Lemma BytesToType_steps env (b : list byte) typ v e :
  BytesToType env b typ = Return (v, e) -> stepResult env b typ v e.
Proof.
  destruct b as [|ver b]; [intros H; injection H as <- <-; constructor|].
  destruct (decide (ver = DefaultVersion env)) as [->|Hver].
  2:{ unfold BytesToType. rewrite bool_decide_false by done. cbn [negb].
      intros ?; simplify_eq. by constructor. }
  destruct b as [|tag payload].
  { unfold BytesToType. rewrite bool_decide_true by done. discriminate. }
  destruct (fixedOrder tag) as [bo|] eqn:Htag.
  { (* the fixed-width encodings *)
    intros Hret.
    destruct (BytesToType_fixed_returns env tag bo typ payload (v, e) Htag Hret)
      as (_ & _ & Hcase).
    destruct (fixedWidth env typ payload) as [w|] eqn:Hw.
    2:{ simplify_eq. by eapply step_invalid_type. }
    case_decide as Hle.
    - cbv zeta in Hcase.
      destruct (platformKind (indirect typ)) eqn:Hp; cbn [andb] in Hcase.
      + pose proof (platformKind_width env typ payload w Hp Hw) as ->.
        destruct (overflows env (indirect typ) _) eqn:Hov.
        * simplify_eq. by eapply step_overflow.
        * destruct Hcase as [_ Hcase]. simplify_eq. case_decide.
          -- by eapply step_leftover.
          -- eapply step_decoded; [done|done|lia|done].
      + destruct Hcase as [_ Hcase]. simplify_eq. case_decide.
        * eapply step_leftover; [done|done|lia|intros; congruence].
        * eapply step_decoded; [done|done|lia|intros; congruence].
    - case_decide as Hnil.
      + simplify_eq. destruct payload; [|done].
        eapply step_nothing_read; [done|done|]. simpl in Hle. lia.
      + simplify_eq. eapply step_short_read; [done|done|lia]. }
  assert (tag <> BigEndianEncoding /\ tag <> LittleEndianEncoding) as [Hbe Hle].
  { revert Htag. unfold fixedOrder. by repeat case_bool_decide. }
  clear Htag. unfold BytesToType.
  rewrite (bool_decide_true (DefaultVersion env = DefaultVersion env)) by done.
  cbn [negb].
  rewrite sliceFrom_cons. cbn [mbind outcome_bind].
  rewrite (bool_decide_false (tag = BigEndianEncoding)),
    (bool_decide_false (tag = LittleEndianEncoding)) by done.
  case_bool_decide as Hzero.
  { subst tag. destruct (IsNillableType typ) eqn:Hnil; cbn [andb].
    - intros ?; simplify_eq. by constructor.
    - destruct (nonNillable_initial typ Hnil) as (-> & -> & Hbox).
      cbn [mbind outcome_bind].
      replace (chain typ (zero typ)) with (zero typ) by by destruct typ.
      rewrite Hbox. intros ?; simplify_eq. by constructor. }
  cbn [andb].
  destruct (initial (indirect typ)) as [iv|p] eqn:Hinit; [|done].
  cbn [mbind outcome_bind].
  case_bool_decide as Hjson.
  { subst tag. destruct (jsonDecode env payload (chain typ iv)) as [ev' msg] eqn:Hdec.
    intros ?; simplify_eq. by eapply step_json. }
  case_bool_decide as Hproto.
  { subst tag. destruct (implementsProto env typ) eqn:Himpl.
    - destruct (assertNonNil _); [|done]. cbn [mbind outcome_bind].
      destruct (protoUnmarshal env typ payload (chain typ iv)) as [ev' msg] eqn:Hdec.
      intros ?; simplify_eq. eapply step_proto; [done| |]; by rewrite Himpl.
    - destruct (implementsProto env (TPtr typ)) eqn:Himpl'.
      + destruct (protoUnmarshal env (TPtr typ) payload (chain typ iv))
          as [ev' msg] eqn:Hdec.
        intros ?; simplify_eq. eapply step_proto; [done| |]; by rewrite Himpl.
      + intros ?; simplify_eq. by constructor. }
  case_bool_decide as Hmsgp.
  { subst tag. destruct (implementsMsgp env typ) eqn:Himpl; cbn [orb].
    - destruct (assertNonNil _); [|done]. cbn [mbind outcome_bind].
      destruct (msgpUnmarshalMsg env typ payload (chain typ iv))
        as [[unread ev'] msg] eqn:Hdec.
      case_decide as Hleft; intros ?; simplify_eq.
      + eapply step_msgp_leftover; [done| | |]; rewrite ?Himpl; [done|done|].
        intros ->. simpl in Hleft. lia.
      + destruct unread; [|simpl in Hleft; lia].
        eapply step_msgp; [done| |]; by rewrite Himpl.
    - destruct (implementsMsgp env (TPtr typ)) eqn:Himpl'.
      + cbn [mbind outcome_bind].
        destruct (msgpUnmarshalMsg env (TPtr typ) payload (chain typ iv))
          as [[unread ev'] msg] eqn:Hdec.
        case_decide as Hleft; intros ?; simplify_eq.
        * eapply step_msgp_leftover; [done| | |]; rewrite ?Himpl; [done|done|].
          intros ->. simpl in Hleft. lia.
        * destruct unread; [|simpl in Hleft; lia].
          eapply step_msgp; [done| |]; by rewrite Himpl.
      + destruct (msgpackDecodeValue env payload (chain typ iv)) as [ev' msg] eqn:Hdec.
        intros ?; simplify_eq. by eapply step_msgpack. }
  case_bool_decide as Hgob.
  { subst tag. destruct (gobDecodeValue env payload (chain typ iv)) as [ev' msg] eqn:Hdec.
    intros ?; simplify_eq. by eapply step_gob. }
  intros ?; simplify_eq. apply step_unmatched.
  unfold knownEncodings. rewrite !not_elem_of_cons. repeat split; try done.
  apply not_elem_of_nil.
Qed.

Lemma stepResult_never_field_not_found env b typ v sk t :
  ~ stepResult env b typ v (Some (ErrFieldNotFound sk t)).
Proof.
  inversion 1; subst;
    match goal with
    | H : ErrExternal <$> ?m = Some _ |- _ => destruct m; discriminate H
    end.
Qed.

(** C7 (as amended). Whenever BytesToType returns, what it returns is what
    the step it stopped at gives. A non-nil error is the error of the failing
    step: it comes with a nil value when the step is the empty-input check,
    the version check, the encoding dispatch, the fixed-width read (an
    invalid type, or a payload that ends in the middle of the width asked
    for), the overflow check, the protobuf capability check or the
    MessagePack leftover check; the error of the leftover-bytes check comes
    with the decoded instance, and the error of a library decoder (JSON,
    protobuf, MessagePack, gob) with the instance as that decoder left it.
    With no error, the result is explicit absence (Empty tag, nillable
    target), the zero value (Empty tag, or a fixed-width payload that is
    empty), the instance decoded from the payload at the end of the pointers
    of the target type, or the instance the library decoder of the tag
    filled. *)
Theorem BytesToType_error_values env (b : list byte) typ v e :
  BytesToType env b typ = Return (v, e) ->
  stepResult env b typ v e /\
  match e with
  | None | Some ErrUnreadData | Some (ErrExternal _) => True
  | Some _ => v = None
  end.
Proof.
  intros Hret%BytesToType_steps. split; [done|].
  inversion Hret; subst; try done;
    match goal with
    | |- match ErrExternal <$> ?m with _ => _ end => by destruct m
    end.
Qed.

Lemma BytesToType_error_values_witness :
  stepResult amd64 [Byte.x01; Byte.x01; Byte.x01; Byte.x02] (TUint U8)
    (Some (VUint U8 1)) (Some ErrUnreadData) /\
  stepResult amd64 [Byte.x01; Byte.x01; Byte.x01] (TUint U16)
    None (Some ErrUnexpectedEOF).
Proof.
  split.
  - exact (proj1 (BytesToType_error_values amd64
                    [Byte.x01; Byte.x01; Byte.x01; Byte.x02] (TUint U8)
                    (Some (VUint U8 1)) (Some ErrUnreadData) eq_refl)).
  - exact (proj1 (BytesToType_error_values amd64
                    [Byte.x01; Byte.x01; Byte.x01] (TUint U16)
                    None (Some ErrUnexpectedEOF) eq_refl)).
Defined.

(** C7 as stated fails: the two-byte payload below decoded into an 8-bit
    unsigned field fails at the leftover-bytes check, and the call returns the
    error together with the decoded value 1, not with a nil value. *)
Lemma BytesToType_error_with_value :
  BytesToType amd64 [Byte.x01; BigEndianEncoding; Byte.x01; Byte.x02] (TUint U8)
  = Return (Some (VUint U8 1), Some ErrUnreadData).
Proof. reflexivity. Qed.

(** ** Theorems: UnmarshalMap *)

(** C8 (the code departs from it). UnmarshalMap({"a.b.c": 1}, target),
    where the target has no field b under a, does not fail with the
    field-not-found error: by the time the message is built [fv] is the zero
    Value, [fv.Type()] panics, and no error is returned. This holds whatever
    the value of the entry is and whatever entries follow it. *)
Theorem UnmarshalMap_missing_field_panics
    (mv : option value) (more : list (string * option value)) :
  UnmarshalMap amd64 (("a.b.c", mv) :: more)
    (Some (VPtr exampleTarget (Some (zero exampleTarget))))
  = (Some (VPtr exampleTarget (Some (zero exampleTarget))),
     Panicked PanicTypeOfZeroValue).
Proof. reflexivity. Qed.

(** Induction along a chain of non-nil pointers. *)
Lemma value_ptr_ind (P : value -> Prop) :
  (forall e x, P x -> P (VPtr e (Some x))) ->
  (forall v, (forall e x, v <> VPtr e (Some x)) -> P v) ->
  forall v, P v.
Proof.
  intros Hptr Hend. fix IH 1. intros v.
  destruct v as [ | | | | | | | | | | | |e [x|]| | | ];
    try (apply Hend; intros; discriminate).
  apply Hptr, IH.
Qed.

(** Induction on types, through the fields of a struct. *)
Lemma type_nested_ind (P : type -> Prop) :
  P TBool -> (forall k, P (TInt k)) -> (forall k, P (TUint k)) ->
  (forall k, P (TFloat k)) -> (forall k, P (TComplex k)) ->
  P TString -> P TUnsafePointer ->
  (forall n e, P e -> P (TArray n e)) ->
  (forall d e, P e -> P (TChan d e)) ->
  P TFunc -> P TInterface ->
  (forall k e, P k -> P e -> P (TMap k e)) ->
  (forall e, P e -> P (TPtr e)) ->
  (forall e, P e -> P (TSlice e)) ->
  (forall name fs, Forall (fun f => P (snd f)) fs -> P (TStruct name fs)) ->
  (forall name b, P (TDefined name b)) ->
  forall t, P t.
Proof.
  intros Hbool Hint Huint Hfloat Hcomplex Hstring Hunsafe Harray Hchan Hfunc
    Hiface Hmap Hptr Hslice Hstruct Hdefined.
  fix IH 1. intros [ | | | | | | |n e|d e| | |k e|e|e|name fs|name b];
    [exact Hbool | apply Hint | apply Huint | apply Hfloat | apply Hcomplex
    | exact Hstring | exact Hunsafe | apply Harray, IH | apply Hchan, IH
    | exact Hfunc | exact Hiface | apply Hmap; apply IH | apply Hptr, IH
    | apply Hslice, IH | | apply Hdefined].
  apply Hstruct. induction fs as [|f fs IHfs]; constructor; [apply IH|exact IHfs].
Qed.

Lemma type_eqb_refl t : type_eqb t t = true.
Proof.
  induction t as [ | | | | | | |n e IH|d e IH| | |k e IHk IHe|e IH|e IH|name fs Hfs
                 |name b] using type_nested_ind;
    simpl; rewrite ?bool_decide_true, ?Nat.eqb_refl, ?String.eqb_refl by done;
    rewrite ?IH, ?IHk, ?IHe; try done.
  induction Hfs as [|f fs Hf _ IH]; [done|].
  rewrite String.eqb_refl, Hf. exact IH.
Qed.

Lemma derefNew_spec t k :
  derefNew t k = (chain t (fst (k (zero (indirect t)))), snd (k (zero (indirect t)))).
Proof.
  induction t; simpl; try apply surjective_pairing.
  rewrite IHt. reflexivity.
Qed.


(** Where the pointers can be followed, the loop over them runs its
    continuation on the value they lead to. *)
Lemma deref_pointeeAt a fv a' x k :
  pointeeAt a fv = Some (a', x) ->
  deref a fv k = (repointed fv (fst (k a' x)), snd (k a' x)).
Proof.
  revert a. induction fv as [e y IH|v Hv] using value_ptr_ind; intros a Hp.
  - simpl in *. by rewrite (IH _ Hp).
  - destruct v as [ | | | | | | | | | | | |e [y|]| | | ]; simpl in *;
      simplify_eq; try apply surjective_pairing.
    + by destruct (Hv e y).
    + destruct (mustBeAssignable a); [done|]. simplify_eq.
      rewrite derefNew_spec. reflexivity.
Qed.

(** Where they cannot, it panics in [Set] and leaves the value as it is. *)
Lemma deref_blocked a fv k :
  pointeeAt a fv = None ->
  exists p, deref a fv k = (fv, Panicked p) /\
            (p = PanicUnexportedField \/ p = PanicUnaddressable).
Proof.
  revert a. induction fv as [e y IH|v Hv] using value_ptr_ind; intros a Hp.
  - simpl in *. destruct (IH _ Hp) as (p & -> & Hcase). by exists p.
  - destruct v as [ | | | | | | | | | | | |e [y|]| | | ]; simpl in *; try done.
    + by destruct (Hv e y).
    + destruct a; simpl in *; try done; eexists; split; eauto.
Qed.

Lemma pointee_chain t x : pointee (chain t x) = pointee x.
Proof. induction t; simpl; done. Qed.

Lemma pointee_repointed fv x' : pointee (repointed fv x') = pointee x'.
Proof.
  induction fv as [e x IH|v Hv] using value_ptr_ind.
  - simpl. exact IH.
  - destruct v as [ | | | | | | | | | | | |e [x|]| | | ]; simpl; try done.
    + by destruct (Hv e x).
    + apply pointee_chain.
Qed.

Lemma pointeeAt_chain t x : pointeeAt Settable (chain t x) = pointeeAt Settable x.
Proof. induction t; simpl; done. Qed.

(** Once the value at the end of the pointers is replaced by a struct, the
    pointers lead to that struct, with the same access. *)
Lemma pointeeAt_repointed a fv a' x name fs :
  pointeeAt a fv = Some (a', x) ->
  pointeeAt a (repointed fv (VStruct name fs)) = Some (a', VStruct name fs).
Proof.
  revert a. induction fv as [e y IH|v Hv] using value_ptr_ind; intros a Hp.
  - simpl in *. by apply IH.
  - destruct v as [ | | | | | | | | | | | |e [y|]| | | ]; simpl in *;
      simplify_eq; try done.
    + by destruct (Hv e y).
    + destruct a; simpl in *; simplify_eq. by rewrite pointeeAt_chain.
Qed.

Lemma withField_spec sk fs k :
  withField sk fs k =
    match fieldNamed sk fs with
    | None => None
    | Some x => Some (setField sk fs (fst (k x)), snd (k x))
    end.
Proof.
  induction fs as [|f fs IH]; simpl; [done|].
  destruct (String.eqb (fst f) sk).
  - by destruct (k (snd f)).
  - rewrite IH. by destruct (fieldNamed sk fs).
Qed.

Lemma fieldNamed_setField sk fs x x' :
  fieldNamed sk fs = Some x -> fieldNamed sk (setField sk fs x') = Some x'.
Proof.
  induction fs as [|f fs IH]; simpl; [done|].
  destruct (String.eqb (fst f) sk) eqn:Heq; simpl; rewrite Heq; [done|exact IH].
Qed.



(** One step of the loop over the segments, where the pointers lead to a
    struct. *)
Lemma walk_step env sk skeys a fv a' name fs k :
  pointeeAt a fv = Some (a', VStruct name fs) ->
  walk env (sk :: skeys) a fv k =
    match fieldNamed sk fs with
    | Some y =>
        let r := walk env skeys (Field_access env a' sk) y k in
        (repointed fv (VStruct name (setField sk fs (fst r))), snd r)
    | None => (repointed fv (VStruct name fs), Panicked PanicTypeOfZeroValue)
    end.
Proof.
  intros Hp. cbn [walk]. rewrite (deref_pointeeAt _ _ _ _ _ Hp), withField_spec.
  by destruct (fieldNamed sk fs).
Qed.

(** Where the loop gets to a field, [walk] runs its continuation on that
    field, and the key leads to the result afterwards, with the same
    access. *)
Lemma walk_locate env skeys a fv a' x k :
  locate env a skeys fv = Some (a', x) ->
  exists fv',
    walk env skeys a fv k = (fv', snd (k a' x)) /\
    resolve skeys fv' = Some (fst (k a' x)) /\
    locate env a skeys fv' = Some (a', fst (k a' x)).
Proof.
  revert a fv. induction skeys as [|sk skeys IH]; intros a fv Hloc.
  - simpl in *. simplify_eq. eexists. split; [apply surjective_pairing|done].
  - simpl in Hloc. destruct (pointeeAt a fv) as [[a1 y]|] eqn:Hp; [|done].
    destruct y as [ | | | | | | | | | | | | | |name fs| ]; try done.
    destruct (fieldNamed sk fs) as [z|] eqn:Hf; [|done]. simpl in Hloc.
    destruct (IH _ _ Hloc) as (z' & Hwalk & Hres & Hloc').
    rewrite (walk_step _ _ _ _ _ _ _ _ _ Hp), Hf. cbv zeta. rewrite Hwalk.
    cbn [fst snd]. eexists. split; [reflexivity|]. split.
    + cbn [resolve]. rewrite pointee_repointed. cbn [pointee].
      by rewrite (fieldNamed_setField _ _ z).
    + cbn [locate]. rewrite (pointeeAt_repointed _ _ _ _ _ _ Hp).
      by rewrite (fieldNamed_setField _ _ z).
Qed.

(** How the loop over the pointers ends: it panics on a nil pointer it may
    not set, or it ends as its continuation does. *)
Lemma deref_status a fv k :
  snd (deref a fv k) = Panicked PanicUnexportedField \/
  snd (deref a fv k) = Panicked PanicUnaddressable \/
  exists a' x, snd (deref a fv k) = snd (k a' x).
Proof.
  destruct (pointeeAt a fv) as [[a' x]|] eqn:Hp.
  - rewrite (deref_pointeeAt _ _ _ _ _ Hp). right. right. by eexists _, _.
  - destruct (deref_blocked a fv k Hp) as (p & -> & [->| ->]); auto.
Qed.

(** The field-not-found error of line 114 is never what [walk] ends with. *)
Lemma walk_never_field_not_found env skeys a fv k sk t :
  (forall s x, snd (k s x) <> Failure (ErrFieldNotFound sk t)) ->
  snd (walk env skeys a fv k) <> Failure (ErrFieldNotFound sk t).
Proof.
  intros Hk. revert a fv.
  induction skeys as [|sk' skeys IH]; intros a fv; [apply Hk|].
  cbn [walk].
  match goal with
  | |- snd (deref a fv ?f) <> _ =>
      destruct (deref_status a fv f) as [->|[->|(a' & x & ->)]]; [done|done|]
  end.
  destruct x; try done. rewrite withField_spec.
  destruct (fieldNamed sk' fields) as [y|]; [apply IH|done].
Qed.

Lemma assign_never_field_not_found env mk mv a fv sk t :
  snd (assign env mk mv a fv) <> Failure (ErrFieldNotFound sk t).
Proof.
  unfold assign, Value_Set.
  repeat (case_match || case_bool_decide); simplify_eq; try done.
  all: match goal with
       | H : BytesToType _ _ _ = Return (_, Some _) |- _ =>
           apply BytesToType_steps in H
       end.
  all: simpl; intros [= ->]; by eapply stepResult_never_field_not_found.
Qed.

(** Without a custom unmarshaler, [UnmarshalMap] never returns the
    field-not-found error. *)
Lemma UnmarshalMap_never_field_not_found env m v sk t :
  (forall ty, mapUnmarshaler env ty = None) ->
  snd (UnmarshalMap env m v) <> Failure (ErrFieldNotFound sk t).
Proof.
  intros Hmu. unfold UnmarshalMap. destruct v as [x|]; [|by case_decide].
  rewrite Hmu. case_decide; [done|].
  assert (forall s rv, snd (entries env m s rv) <> Failure (ErrFieldNotFound sk t)) as Hentries.
  { clear. induction m as [|kv m IH]; intros s rv; [done|]. cbn [entries].
    pose proof (walk_never_field_not_found env (Split (fst kv) Separator) s rv
                  (assign env (fst kv) (snd kv)) sk t
                  (fun s x => assign_never_field_not_found env _ _ s x sk t)) as Hw.
    destruct (walk _ _ _ _ _) as [rv' []]; simpl in *; [apply IH|done..]. }
  assert (forall s, snd (indirected s x (entries env m)) <> Failure (ErrFieldNotFound sk t)) as Hind.
  { induction x as [e y IH|y Hy] using value_ptr_ind; intros s.
    - simpl. specialize (IH (Elem_access s)). by destruct (indirected _ y _).
    - destruct y as [ | | | | | | | | | | | |e [y|]| | | ]; simpl; try apply Hentries; try done.
      by destruct (Hy e y). }
  specialize (Hind Unaddressable). by destruct (indirected _ x _).
Qed.

Lemma entries_app env pre m a rv :
  entries env (pre ++ m) a rv =
    match entries env pre a rv with
    | (rv1, Success) => entries env m a rv1
    | r => r
    end.
Proof.
  revert rv. induction pre as [|kv pre IH]; intros rv; simpl; [done|].
  destruct (walk _ _ _ _ _) as [rv' []]; [apply IH|done..].
Qed.

Lemma UnmarshalMap_pointer_struct env m T name fs :
  mapUnmarshaler env (TPtr T) = None -> m <> [] ->
  UnmarshalMap env m (Some (VPtr T (Some (VStruct name fs))))
  = (Some (VPtr T (Some (fst (entries env m Settable (VStruct name fs))))),
     snd (entries env m Settable (VStruct name fs))).
Proof.
  intros Hmu Hm. unfold UnmarshalMap. cbn [typeOf]. rewrite Hmu.
  case_decide as Hlen; [by destruct m|]. cbn [indirected Elem_access].
  by destruct (entries env m Settable (VStruct name fs)).
Qed.

(** One entry of the map, reached after the entries before it were stored,
    whose key leads to the field [fv]. *)
Lemma UnmarshalMap_entry env pre mk mv post T name fs rv1 a fv :
  mapUnmarshaler env (TPtr T) = None ->
  entries env pre Settable (VStruct name fs) = (rv1, Success) ->
  locate env Settable (Split mk Separator) rv1 = Some (a, fv) ->
  exists rv',
    resolve (Split mk Separator) rv' = Some (fst (assign env mk mv a fv)) /\
    walk env (Split mk Separator) Settable rv1 (assign env mk mv)
    = (rv', snd (assign env mk mv a fv)) /\
    UnmarshalMap env (pre ++ (mk, mv) :: post) (Some (VPtr T (Some (VStruct name fs))))
    = match snd (assign env mk mv a fv) with
      | Success =>
          (Some (VPtr T (Some (fst (entries env post Settable rv')))),
           snd (entries env post Settable rv'))
      | st => (Some (VPtr T (Some rv')), st)
      end.
Proof.
  intros Hmu Hpre Hloc.
  destruct (walk_locate _ _ _ _ _ _ (assign env mk mv) Hloc) as (rv' & Hwalk & Hres' & _).
  exists rv'. split; [done|]. split; [done|].
  rewrite UnmarshalMap_pointer_struct by (done || by destruct pre).
  rewrite entries_app, Hpre. cbn [entries fst snd]. rewrite Hwalk.
  by destruct (snd (assign env mk mv a fv)).
Qed.

Lemma assignedTo_scalar T mv :
  scalarKind (Type_Kind (typeOf mv)) = true -> assignedTo T mv = mv.
Proof. intros Hs. destruct mv; try done; destruct T; done. Qed.

(** [Value.Set] of a value of a scalar kind in a field of its type. *)
Lemma Value_Set_scalar mv fv :
  scalarKind (Type_Kind (typeOf mv)) = true ->
  typeOf mv = typeOf fv ->
  Value_Set Settable fv mv = (mv, Success).
Proof.
  intros Hs Heq. unfold Value_Set. cbn [mustBeAssignable].
  rewrite <- Heq. unfold directlyAssignable. rewrite type_eqb_refl. cbn [orb].
  rewrite (assignedTo_scalar _ _ Hs).
  destruct fv; try done. by rewrite Heq in Hs.
Qed.

(** C9 (as amended). For every entry of the mapping whose value is of a
    scalar kind (signed or unsigned integer of any width, float, bool,
    string), reached by the iteration after the entries before it were
    stored, and whose key leads to a field of the target: when the kind of the
    value differs from the kind of the field, UnmarshalMap fails with the
    kind-mismatch error that names the key and both kinds, and the field
    keeps its value (nothing is coerced); when the type of the value is the
    type of the field, and the field can be set (the segments of the key name
    exported fields), the value is stored in the field as it is, and the
    iteration goes on with the entries that follow. *)
Theorem UnmarshalMap_scalar_entry env pre mk mv post T name fs rv1 a fv :
  mapUnmarshaler env (TPtr T) = None ->
  entries env pre Settable (VStruct name fs) = (rv1, Success) ->
  locate env Settable (Split mk Separator) rv1 = Some (a, fv) ->
  scalarKind (Type_Kind (typeOf mv)) = true ->
  let m := pre ++ (mk, Some mv) :: post in
  let target := Some (VPtr T (Some (VStruct name fs))) in
  (Type_Kind (typeOf mv) <> Type_Kind (typeOf fv) ->
   exists rv',
     UnmarshalMap env m target
     = (Some (VPtr T (Some rv')),
        Failure (ErrInvalidData
                   (KindMismatch mk (Type_Kind (typeOf fv)) (Type_Kind (typeOf mv))))) /\
     resolve (Split mk Separator) rv' = Some fv) /\
  (typeOf mv = typeOf fv -> a = Settable ->
   exists rv2,
     resolve (Split mk Separator) rv2 = Some mv /\
     entries env (pre ++ [(mk, Some mv)]) Settable (VStruct name fs) = (rv2, Success) /\
     UnmarshalMap env m target
     = (Some (VPtr T (Some (fst (entries env post Settable rv2)))),
        snd (entries env post Settable rv2))).
Proof.
  intros Hmu Hpre Hloc Hscalar m target.
  destruct (UnmarshalMap_entry env pre mk (Some mv) post T name fs rv1 a fv Hmu Hpre Hloc)
    as (rv' & Hres & Hwalk & Hcall).
  fold m target in Hcall. split.
  - intros Hkind. exists rv'.
    assert (assign env mk (Some mv) a fv
            = (fv, Failure (ErrInvalidData
                              (KindMismatch mk (Type_Kind (typeOf fv))
                                 (Type_Kind (typeOf mv)))))) as Hassign.
    { unfold assign. by rewrite Hscalar, bool_decide_false. }
    rewrite Hassign in Hres, Hcall. done.
  - intros Hty ->. exists rv'.
    assert (assign env mk (Some mv) Settable fv = (mv, Success)) as Hassign.
    { unfold assign. rewrite Hscalar, bool_decide_true by by rewrite Hty.
      by apply Value_Set_scalar. }
    rewrite Hassign in Hres, Hwalk, Hcall. cbn [fst snd] in *.
    split; [done|]. split; [|done].
    rewrite entries_app, Hpre. cbn [entries fst snd]. by rewrite Hwalk.
Qed.

Lemma UnmarshalMap_scalar_entry_witness :
  (exists rv',
     UnmarshalMap amd64 [("N", Some (VUint U8 7)); ("A.X", Some (VString [Byte.x31]))]
       (Some (VPtr exportedTarget (Some (zero exportedTarget))))
     = (Some (VPtr exportedTarget (Some rv')),
        Failure (ErrInvalidData (KindMismatch "A.X" Int String))) /\
     resolve ["A"; "X"] rv' = Some (VInt I 0)) /\
  (exists rv2,
     resolve ["A"; "X"] rv2 = Some (VInt I 5) /\
     entries amd64 [("N", Some (VUint U8 7)); ("A.X", Some (VInt I 5))] Settable
       (zero exportedTarget) = (rv2, Success) /\
     UnmarshalMap amd64 [("N", Some (VUint U8 7)); ("A.X", Some (VInt I 5))]
       (Some (VPtr exportedTarget (Some (zero exportedTarget))))
     = (Some (VPtr exportedTarget (Some rv2)), Success)).
Proof.
  split.
  - apply (UnmarshalMap_scalar_entry amd64 [("N", Some (VUint U8 7))] "A.X"
             (VString [Byte.x31]) [] exportedTarget "Target"
             [("A", zero exportedInner); ("N", zero (TUint U8))]
             (VStruct "Target" [("A", zero exportedInner); ("N", VUint U8 7)])
             Settable (VInt I 0)).
    + reflexivity.
    + reflexivity.
    + reflexivity.
    + reflexivity.
    + discriminate.
  - apply (UnmarshalMap_scalar_entry amd64 [("N", Some (VUint U8 7))] "A.X"
             (VInt I 5) [] exportedTarget "Target"
             [("A", zero exportedInner); ("N", zero (TUint U8))]
             (VStruct "Target" [("A", zero exportedInner); ("N", VUint U8 7)])
             Settable (VInt I 0)).
    + reflexivity.
    + reflexivity.
    + reflexivity.
    + reflexivity.
    + reflexivity.
    + reflexivity.
Defined.

(** C9 as stated fails: the kinds of the value and of the field are equal
    and the value is not assigned. A uint8 for a field of a type defined from
    uint8 makes [Value.Set] panic, since the types differ, and so does an int
    for the int field [x] of the spec's example target, which is not
    exported. *)
Lemma UnmarshalMap_equal_kinds_not_assigned :
  UnmarshalMap amd64 [("Level", Some (VUint U8 7))]
    (Some (VPtr levelTarget (Some (zero levelTarget))))
  = (Some (VPtr levelTarget (Some (zero levelTarget))),
     Panicked (PanicNotAssignable (TUint U8) (TDefined "Level" (BUint U8)))) /\
  UnmarshalMap amd64 [("a.x", Some (VInt I 5))]
    (Some (VPtr exampleTarget (Some (zero exampleTarget))))
  = (Some (VPtr exampleTarget (Some (zero exampleTarget))),
     Panicked PanicUnexportedField).
Proof. split; reflexivity. Qed.

(** ** Theorems: Unflattened *)

Lemma splitFrom_nonempty sep n s : splitFrom sep n s <> [].
Proof.
  revert n. induction s as [|c s IH]; intros [|n]; simpl; try done.
  repeat case_match; done.
Qed.

Lemma prefix_empty s : String.prefix EmptyString s = true.
Proof. by destruct s. Qed.

Lemma Join_Split s : Join (Split s Separator) Separator = s.
Proof.
  unfold Split, Separator. induction s as [|c s IH]; [done|].
  cbn [splitFrom String.prefix].
  pose proof (splitFrom_nonempty "." 0 s) as Hne.
  destruct (Ascii.ascii_dec _ c) as [<-|Hc].
  - rewrite prefix_empty. cbn [String.length Nat.sub].
    destruct (splitFrom "." 0 s) as [|seg segs]; [done|].
    cbn [Join]. cbn [Join] in IH. rewrite IH. reflexivity.
  - destruct (splitFrom "." 0 s) as [|seg segs]; [done|].
    rewrite <- IH. by destruct segs.
Qed.

Lemma Split_inj k1 k2 : Split k1 Separator = Split k2 Separator -> k1 = k2.
Proof.
  intros Heq. rewrite <- (Join_Split k1), <- (Join_Split k2). by rewrite Heq.
Qed.

Lemma unsnoc_Some {A} (l : list A) init x :
  unsnoc l = Some (init, x) -> l = init ++ [x].
Proof.
  revert init. induction l as [|y l IH]; intros init; [done|].
  destruct l as [|z l]; [intros; by simplify_eq/=|].
  change (unsnoc (y :: z :: l)) with ('(i, w) ← unsnoc (z :: l); Some (y :: i, w)).
  destruct (unsnoc (z :: l)) as [[i w]|]; [|done].
  intros; simplify_eq/=. f_equal. by apply IH.
Qed.

Lemma unsnoc_Split k : exists init x, unsnoc (Split k Separator) = Some (init, x).
Proof.
  assert (forall l : list string, l <> [] -> exists init x, unsnoc l = Some (init, x)) as H.
  { induction l as [|y l IH]; [done|]. intros _. destruct l as [|z l]; [by eexists _, _|].
    destruct IH as (i & w & Hiw); [done|].
    change (unsnoc (y :: z :: l)) with ('(i, w) ← unsnoc (z :: l); Some (y :: i, w)).
    rewrite Hiw. by eexists _, _. }
  apply H, splitFrom_nonempty.
Qed.

Section Nested.

Context {A : Type}.
Implicit Types (parent out : gmap string (nested A)) (x v : nested A).
Implicit Types (q skeys : list string).

Lemma lookupPath_app q r x :
  lookupPath (q ++ r) x = lookupPath q x ≫= lookupPath r.
Proof.
  revert x. induction q as [|s q IH]; intros x; [done|].
  simpl. destruct x as [a|m|]; [done| |done].
  destruct (m !! s); simpl; [apply IH|done].
Qed.

Lemma lookupPath_through q r x v :
  r <> [] -> lookupPath (q ++ r) x = Some v ->
  exists m, lookupPath q x = Some (Mapping m).
Proof.
  rewrite lookupPath_app. intros Hr Hl.
  destruct (lookupPath q x) as [[a|m|]|]; simpl in Hl;
    [by destruct r|by eexists|by destruct r|done].
Qed.

Lemma lookupPath_empty q : q <> [] -> lookupPath q (Mapping (∅ : gmap string (nested A))) = None.
Proof. destruct q; [done|]. intros _. simpl. by rewrite lookup_empty. Qed.

Lemma bindAt_returns parent skeys last v :
  (forall p x, p <> [] -> p `prefix_of` skeys ->
               lookupPath p (Mapping parent) = Some x -> exists m, x = Mapping m) ->
  exists out, bindAt parent skeys last v = Return out.
Proof.
  revert parent. induction skeys as [|sk skeys IH]; intros parent Hfree; simpl.
  - by eexists.
  - assert (forall x, parent !! sk = Some x -> exists m, x = Mapping m) as Hhere.
    { intros x Hx. apply (Hfree [sk] x); [done|by apply prefix_cons, prefix_nil|].
      simpl. by rewrite Hx. }
    destruct (parent !! sk) as [[a|sm|]|] eqn:Hsk.
    + by destruct (Hhere _ eq_refl).
    + destruct (IH sm) as [sm' ->]; [|by eexists].
      intros p x Hp Hpre. specialize (Hfree (sk :: p) x).
      simpl in Hfree. rewrite Hsk in Hfree. apply Hfree; [done|by apply prefix_cons].
    + by destruct (Hhere _ eq_refl).
    + destruct (IH ∅) as [sm' ->]; [|by eexists].
      intros p x Hp _. by rewrite lookupPath_empty.
Qed.

Lemma bindAt_bound parent skeys last v out :
  bindAt parent skeys last v = Return out ->
  lookupPath (skeys ++ [last]) (Mapping out) = Some v.
Proof.
  revert parent out. induction skeys as [|sk skeys IH]; intros parent out; simpl.
  - intros [= <-]. by rewrite lookup_insert_eq.
  - destruct (parent !! sk) as [[a|sm|]|]; [done| |done|].
    + destruct (bindAt sm skeys last v) as [sm'|] eqn:Hsub; [|done].
      intros [= <-]. rewrite lookup_insert_eq. simpl. by eapply IH.
    + destruct (bindAt ∅ skeys last v) as [sm'|] eqn:Hsub; [|done].
      intros [= <-]. rewrite lookup_insert_eq. simpl. by eapply IH.
Qed.

Lemma bindAt_elsewhere parent skeys last v out q :
  bindAt parent skeys last v = Return out ->
  ~ q `prefix_of` skeys ++ [last] ->
  ~ skeys ++ [last] `prefix_of` q ->
  lookupPath q (Mapping out) = lookupPath q (Mapping parent).
Proof.
  revert parent out q. induction skeys as [|sk skeys IH]; intros parent out q; simpl.
  - intros [= <-] Hq1 Hq2. destruct q as [|s q]; [by destruct Hq1; apply prefix_nil|].
    simpl. rewrite lookup_insert_ne; [done|].
    intros <-. apply Hq2. by apply prefix_cons, prefix_nil.
  - intros Hbind Hq1 Hq2.
    destruct q as [|s q]; [by destruct Hq1; apply prefix_nil|].
    destruct (decide (sk = s)) as [<-|Hne].
    2:{ destruct (parent !! sk) as [[a|sm|]|]; [done| |done|];
          destruct (bindAt _ skeys last v); simplify_eq/=;
          by rewrite lookup_insert_ne. }
    assert (~ q `prefix_of` skeys ++ [last]) as Hq1'
      by (intros ?; by apply Hq1, prefix_cons).
    assert (~ skeys ++ [last] `prefix_of` q) as Hq2'
      by (intros ?; by apply Hq2, prefix_cons).
    destruct (parent !! sk) as [[a|sm|]|] eqn:Hsk; [done| |done|].
    + destruct (bindAt sm skeys last v) as [sm'|] eqn:Hsub; [|done].
      simplify_eq/=. rewrite lookup_insert_eq, Hsk. simpl. by eapply IH.
    + destruct (bindAt ∅ skeys last v) as [sm'|] eqn:Hsub; [|done].
      simplify_eq/=. rewrite lookup_insert_eq, Hsk. simpl.
      rewrite (IH _ _ _ Hsub Hq1' Hq2'). apply lookupPath_empty.
      intros ->. apply Hq1'. apply prefix_nil.
Qed.

End Nested.

Section Unflatten.

Context {A : Type}.
Implicit Types (out : gmap string (nested A)) (l todo : list (string * nested A)).

Lemma unflattenStep_invariant l kv out :
  bindsAll l out -> bindsOnly l out ->
  (forall k v, (k, v) ∈ l ->
     ~ Split k Separator `prefix_of` Split (fst kv) Separator /\
     ~ Split (fst kv) Separator `prefix_of` Split k Separator) ->
  exists out',
    unflattenStep (Return out) kv = Return out' /\
    bindsAll (l ++ [kv]) out' /\ bindsOnly (l ++ [kv]) out'.
Proof.
  intros Hall Honly Hapart. destruct kv as [k' v']. cbn [fst] in Hapart.
  unfold unflattenStep. cbn [mbind outcome_bind fst snd].
  destruct (unsnoc_Split k') as (skeys & last & Hsplit). rewrite Hsplit.
  apply unsnoc_Some in Hsplit.
  destruct (bindAt_returns out skeys last v') as [out' Hbind].
  { intros p x Hp Hpre Hx.
    destruct (Honly p x Hp Hx) as (k & v & Hin & [Hk|(_ & sm & ?)]); [|by exists sm].
    destruct (Hapart k v Hin) as [Hno _]. destruct Hno. rewrite Hsplit.
    etrans; [exact Hk|]. etrans; [exact Hpre|]. by apply prefix_app_r. }
  exists out'. split; [done|]. pose proof (bindAt_bound _ _ _ _ _ Hbind) as Hnew.
  rewrite <- Hsplit in Hnew. split.
  - intros k v [Hin|Hin]%elem_of_app.
    + destruct (Hapart k v Hin) as [Hno1 Hno2].
      rewrite (bindAt_elsewhere _ _ _ _ _ _ Hbind); [by apply Hall|..];
        by rewrite <- Hsplit.
    + apply list_elem_of_singleton in Hin. by simplify_eq.
  - intros q x Hq Hx.
    destruct (decide (Split k' Separator `prefix_of` q)) as [Hd|Hd].
    { exists k', v'. split; [apply elem_of_app; right; by apply list_elem_of_singleton|].
      by left. }
    destruct (decide (q `prefix_of` Split k' Separator)) as [[r Hr]|Hu].
    { exists k', v'. split; [apply elem_of_app; right; by apply list_elem_of_singleton|].
      right. split; [by exists r|].
      rewrite Hr in Hnew. apply lookupPath_through in Hnew as [sm Hsm].
      - exists sm. congruence.
      - intros ->. apply Hd. rewrite Hr, app_nil_r. done. }
    rewrite (bindAt_elsewhere _ _ _ _ _ _ Hbind) in Hx by (by rewrite <- Hsplit).
    destruct (Honly q x Hq Hx) as (k & v & Hin & Hcase).
    exists k, v. split; [apply elem_of_app; by left|done].
Qed.

Lemma unflatten_foldl todo l out :
  bindsAll l out -> bindsOnly l out ->
  NoDup (l ++ todo).*1 ->
  (forall k1 k2, k1 ∈ (l ++ todo).*1 -> k2 ∈ (l ++ todo).*1 ->
     ~ (Split k1 Separator `prefix_of` Split k2 Separator /\
        Split k1 Separator <> Split k2 Separator)) ->
  exists out',
    foldl unflattenStep (Return out) todo = Return out' /\
    bindsAll (l ++ todo) out' /\ bindsOnly (l ++ todo) out'.
Proof.
  revert l out. induction todo as [|kv todo IH]; intros l out Hall Honly Hdup Hfree.
  - exists out. by rewrite app_nil_r.
  - destruct (unflattenStep_invariant l kv out Hall Honly) as (out1 & Hstep & Hall1 & Honly1).
    { intros k v Hin.
      assert (k ∈ (l ++ kv :: todo).*1) as Hk.
      { rewrite fmap_app. apply elem_of_app. left.
        apply list_elem_of_fmap. by exists (k, v). }
      assert (fst kv ∈ (l ++ kv :: todo).*1) as Hk'.
      { rewrite fmap_app. apply elem_of_app. right. simpl. apply list_elem_of_here. }
      assert (k <> fst kv) as Hne.
      { intros ->. rewrite fmap_app in Hdup. apply NoDup_app in Hdup as (_ & Hdup & _).
        apply (Hdup (fst kv)).
        - apply list_elem_of_fmap. by exists (kv.1, v).
        - simpl. apply list_elem_of_here. }
      split; intros Hpre.
      - apply (Hfree k (fst kv) Hk Hk'). split; [done|]. intros ?%Split_inj. done.
      - apply (Hfree (fst kv) k Hk' Hk). split; [done|]. intros ?%Split_inj. done. }
    cbn [foldl]. rewrite Hstep.
    destruct (IH (l ++ [kv]) out1 Hall1 Honly1) as (out' & Hfold & Hall' & Honly').
    + by rewrite <- app_assoc.
    + by rewrite <- app_assoc.
    + exists out'. by rewrite <- app_assoc in Hall', Honly'.
Qed.

End Unflatten.

(** C10. For every flattened mapping whose keys are collision-free (the
    separator-split path of no key is a proper prefix of the path of another
    key; the keys of a mapping are distinct), and for every order in which the
    range visits its entries, Unflattened returns without panic a nested
    mapping in which every input value is bound at the path of its key and
    every proper prefix of the path of a key is bound to a mapping; nothing
    else is bound in it but what lies on or below these paths. *)
Theorem Unflattened_collision_free {A} (flat : gmap string (nested A))
    (m : list (string * nested A)) :
  m ≡ₚ map_to_list flat ->
  (forall k1 k2, is_Some (flat !! k1) -> is_Some (flat !! k2) ->
     ~ (Split k1 Separator `prefix_of` Split k2 Separator /\
        Split k1 Separator <> Split k2 Separator)) ->
  exists out,
    Unflattened m = Return out /\
    (forall k v, flat !! k = Some v ->
       lookupPath (Split k Separator) (Mapping out) = Some v) /\
    (forall k p r, is_Some (flat !! k) -> Split k Separator = p ++ r -> r <> [] ->
       exists sm, lookupPath p (Mapping out) = Some (Mapping sm)) /\
    (forall q x, q <> [] -> lookupPath q (Mapping out) = Some x ->
       exists k, is_Some (flat !! k) /\
         (Split k Separator `prefix_of` q \/ q `prefix_of` Split k Separator)).
Proof.
  intros Hperm Hfree.
  assert (forall k v, (k, v) ∈ m <-> flat !! k = Some v) as Hin.
  { intros k v. rewrite Hperm. apply elem_of_map_to_list. }
  assert (forall k, k ∈ m.*1 -> is_Some (flat !! k)) as Hkeys.
  { intros k ([k' v] & -> & Hkv)%list_elem_of_fmap. exists v. by apply Hin. }
  destruct (unflatten_foldl m [] ∅) as (out & Hfold & Hall & Honly).
  - intros k v Hnil. by apply elem_of_nil in Hnil.
  - intros q x Hq Hx. by rewrite lookupPath_empty in Hx.
  - simpl. rewrite Hperm. apply NoDup_fst_map_to_list.
  - simpl. intros k1 k2 H1 H2. apply Hfree; by apply Hkeys.
  - simpl in Hall, Honly. exists out. split; [exact Hfold|]. split; [|split].
    + intros k v Hk. by apply Hall, Hin.
    + intros k p r [v Hk] Hsplit Hr.
      apply (lookupPath_through p r _ v Hr). rewrite <- Hsplit. by apply Hall, Hin.
    + intros q x Hq Hx. destruct (Honly q x Hq Hx) as (k & v & Hkv & Hcase).
      exists k. split; [exists v; by apply Hin|]. destruct Hcase as [?|[? _]]; auto.
Qed.

Lemma Unflattened_collision_free_witness :
  exists out,
    Unflattened exampleFlat = Return out /\
    lookupPath ["a"; "b"] (Mapping out) = Some (Leaf 1%nat) /\
    lookupPath ["a"; "c"] (Mapping out) = Some (Leaf 2%nat) /\
    lookupPath ["d"] (Mapping out) = Some (Leaf 3%nat) /\
    exists sm, lookupPath ["a"] (Mapping out) = Some (Mapping sm).
Proof.
  destruct (Unflattened_collision_free (list_to_map exampleFlat) exampleFlat)
    as (out & Hret & Hall & Hmid & _).
  - symmetry. apply map_to_list_to_map.
    apply (bool_decide_unpack _). vm_compute. exact Logic.I.
  - intros k1 k2 [v1 H1] [v2 H2].
    apply elem_of_list_to_map_2 in H1, H2.
    unfold exampleFlat in H1, H2. rewrite !elem_of_cons, elem_of_nil in H1, H2.
    destruct H1 as [H1|[H1|[H1|[]]]], H2 as [H2|[H2|[H2|[]]]];
      injection H1 as -> _; injection H2 as -> _;
      vm_compute; intros [[r Hr] Hne]; try discriminate; by apply Hne.
  - exists out. split; [exact Hret|].
    split; [apply (Hall "a.b"); reflexivity|].
    split; [apply (Hall "a.c"); reflexivity|].
    split; [apply (Hall "d"); reflexivity|].
    apply (Hmid "a.b" ["a"] ["b"]); [by eexists|reflexivity|discriminate].
Defined.

(** Keys that collide: a later key below a bound leaf panics, and a later
    key above a created mapping replaces it. *)
Example Unflattened_collisions :
  Unflattened [("a", Leaf 1%nat); ("a.b", Leaf 2%nat)] = Panic PanicNotAMap /\
  Unflattened [("a.b", Leaf 2%nat); ("a", Leaf 1%nat)] = Return {[ "a" := Leaf 1%nat ]}.
Proof. split; reflexivity. Qed.


(** ** Unflattened: the order of the iteration, and colliding keys *)

Lemma apartKeys_lookup {V} (m : list (string * V)) :
  (forall i j kv1 kv2, i <> j -> m !! i = Some kv1 -> m !! j = Some kv2 ->
     ~ Split (fst kv1) Separator `prefix_of` Split (fst kv2) Separator) ->
  apartKeys m.
Proof.
  induction m as [|kv m IH]; intros H; [done|]. split.
  - apply Forall_lookup. intros j kv' Hj. split.
    + by apply (H 0%nat (S j)).
    + by apply (H (S j) 0%nat).
  - apply IH. intros i j kv1 kv2 Hne H1 H2. apply (H (S i) (S j)); auto.
Qed.

Lemma apartKeys_inv {V} (m : list (string * V)) i j kv1 kv2 :
  apartKeys m -> i <> j -> m !! i = Some kv1 -> m !! j = Some kv2 ->
  incomparable (Split (fst kv1) Separator) (Split (fst kv2) Separator).
Proof.
  revert i j. induction m as [|kv m IH]; intros i j Hap Hne Hi Hj; [done|].
  destruct Hap as [Hhead Hm]. rewrite Forall_lookup in Hhead.
  destruct i as [|i], j as [|j]; simplify_eq/=.
  - by eapply Hhead.
  - destruct (Hhead _ _ Hi). by split.
  - by eapply (IH i j); eauto.
Qed.


Section UnflattenOrder.

Context {A : Type}.
Implicit Types (parent out : gmap string (nested A)) (v : nested A).

Lemma bindAt_cons parent sk skeys last v :
  bindAt parent (sk :: skeys) last v
  = sm ← child parent sk; sm' ← bindAt sm skeys last v;
    Return (<[sk := Mapping sm']> parent).
Proof. unfold child. simpl. by destruct (parent !! sk) as [[a|sm|]|]. Qed.

Lemma bindAt_nil parent last v :
  bindAt parent [] last v = Return (<[last := v]> parent).
Proof. done. Qed.

Lemma child_insert_ne parent sk sk' x :
  sk <> sk' -> child (<[sk := x]> parent) sk' = child parent sk'.
Proof. intros Hne. unfold child. by rewrite lookup_insert_ne. Qed.

Lemma child_insert_eq parent sk sm :
  child (<[sk := Mapping sm]> parent) sk = Return sm.
Proof. unfold child. by rewrite lookup_insert_eq. Qed.

Lemma child_panic parent sk p :
  child parent sk = Panic p -> p = PanicNotAMap \/ p = PanicNilMap.
Proof. unfold child. repeat case_match; intros [= <-]; auto. Qed.

(** The inner loop panics on the type assertion or on a store in the nil
    mapping, and in no other way. *)
Lemma bindAt_panic parent skeys last v p :
  bindAt parent skeys last v = Panic p -> p = PanicNotAMap \/ p = PanicNilMap.
Proof.
  revert parent. induction skeys as [|sk skeys IH]; intros parent; [done|].
  rewrite bindAt_cons. destruct (child parent sk) as [sm|p'] eqn:Hc; simpl.
  - destruct (bindAt sm skeys last v) as [sm'|p'] eqn:Hb; simpl; [done|].
    intros [= <-]. by eapply IH.
  - intros [= <-]. by eapply child_panic.
Qed.

(** Binding at two incomparable paths, in either order: the two orders
    return the same mapping, or both panic. *)
Lemma bindAt_commute parent r1 l1 v1 r2 l2 v2 :
  incomparable (r1 ++ [l1]) (r2 ++ [l2]) ->
  returned (out ← bindAt parent r1 l1 v1; bindAt out r2 l2 v2)
  = returned (out ← bindAt parent r2 l2 v2; bindAt out r1 l1 v1).
Proof.
  revert parent r2. induction r1 as [|s1 r1 IH]; intros parent [|s2 r2] [H12 H21].
  - assert (l1 <> l2) by (intros ->; by apply H12).
    simpl. by rewrite insert_insert_ne.
  - assert (l1 <> s2) as Hne.
    { intros ->. apply H12. simpl. by apply prefix_cons, prefix_nil. }
    rewrite bindAt_nil, bindAt_cons. cbn [mbind outcome_bind].
    rewrite bindAt_cons, child_insert_ne by done.
    destruct (child parent s2) as [sm|p]; [|done]. cbn [mbind outcome_bind].
    destruct (bindAt sm r2 l2 v2) as [sm'|p]; [|done]. cbn [mbind outcome_bind].
    by rewrite bindAt_nil, insert_insert_ne.
  - assert (l2 <> s1) as Hne.
    { intros ->. apply H21. simpl. by apply prefix_cons, prefix_nil. }
    rewrite bindAt_nil, bindAt_cons. cbn [mbind outcome_bind].
    rewrite bindAt_cons, child_insert_ne by done.
    destruct (child parent s1) as [sm|p]; [|done]. cbn [mbind outcome_bind].
    destruct (bindAt sm r1 l1 v1) as [sm'|p]; [|done]. cbn [mbind outcome_bind].
    by rewrite bindAt_nil, insert_insert_ne.
  - rewrite !bindAt_cons. destruct (decide (s1 = s2)) as [<-|Hne].
    + destruct (child parent s1) as [sm|p]; [|done]. cbn [mbind outcome_bind].
      assert (incomparable (r1 ++ [l1]) (r2 ++ [l2])) as Hinc.
      { split; intros Hpre; [apply H12|apply H21]; by apply prefix_cons. }
      specialize (IH sm r2 Hinc).
      destruct (bindAt sm r1 l1 v1) as [sm1|p1] eqn:Hb1;
        destruct (bindAt sm r2 l2 v2) as [sm2|p2] eqn:Hb2;
        cbn [mbind outcome_bind] in *;
        rewrite ?bindAt_cons, ?child_insert_eq; cbn [mbind outcome_bind];
        try done.
      * destruct (bindAt sm1 r2 l2 v2) as [t1|q1];
          destruct (bindAt sm2 r1 l1 v1) as [t2|q2];
          simpl in *; simplify_eq; [|done].
        by rewrite !insert_insert_eq.
      * destruct (bindAt sm1 r2 l2 v2) as [t1|q1]; simpl in *; by simplify_eq.
      * destruct (bindAt sm2 r1 l1 v1) as [t2|q2]; simpl in *; by simplify_eq.
    + destruct (child parent s1) as [sm1|p1] eqn:Hc1;
        destruct (child parent s2) as [sm2|p2] eqn:Hc2;
        cbn [mbind outcome_bind].
      * destruct (bindAt sm1 r1 l1 v1) as [sm1'|p1] eqn:Hb1;
          destruct (bindAt sm2 r2 l2 v2) as [sm2'|p2] eqn:Hb2;
          cbn [mbind outcome_bind];
          rewrite ?bindAt_cons, ?child_insert_ne, ?Hc1, ?Hc2 by done;
          cbn [mbind outcome_bind]; rewrite ?Hb1, ?Hb2; cbn [mbind outcome_bind];
          try done.
        by rewrite insert_insert_ne.
      * destruct (bindAt sm1 r1 l1 v1) as [sm1'|p1] eqn:Hb1;
          cbn [mbind outcome_bind];
          rewrite ?bindAt_cons, ?child_insert_ne, ?Hc2 by done; done.
      * destruct (bindAt sm2 r2 l2 v2) as [sm2'|p2] eqn:Hb2;
          cbn [mbind outcome_bind];
          rewrite ?bindAt_cons, ?child_insert_ne, ?Hc1 by done; done.
      * done.
Qed.

Lemma unflattenStep_commute acc (kv1 kv2 : string * nested A) :
  incomparable (Split (fst kv1) Separator) (Split (fst kv2) Separator) ->
  returned (unflattenStep (unflattenStep acc kv1) kv2)
  = returned (unflattenStep (unflattenStep acc kv2) kv1).
Proof.
  intros Hinc. destruct acc as [out|p]; [|done].
  destruct (unsnoc_Split (fst kv1)) as (r1 & l1 & H1).
  destruct (unsnoc_Split (fst kv2)) as (r2 & l2 & H2).
  pose proof (unsnoc_Some _ _ _ H1) as H1'. pose proof (unsnoc_Some _ _ _ H2) as H2'.
  rewrite H1', H2' in Hinc.
  pose proof (bindAt_commute out r1 l1 (snd kv1) r2 l2 (snd kv2) Hinc) as Hc.
  unfold unflattenStep at 2 4. cbn [mbind outcome_bind]. rewrite H1, H2.
  destruct (bindAt out r1 l1 (snd kv1)) as [o1|p1];
    destruct (bindAt out r2 l2 (snd kv2)) as [o2|p2];
    unfold unflattenStep; cbn [mbind outcome_bind] in *; rewrite ?H1, ?H2; done.
Qed.

Lemma unflatten_panic_absorbs (m : list (string * nested A)) p :
  foldl unflattenStep (Panic p) m = Panic p.
Proof. induction m as [|kv m IH]; [done|]. simpl. apply IH. Qed.

Lemma unflatten_returned (m : list (string * nested A)) acc acc' :
  returned acc = returned acc' ->
  returned (foldl unflattenStep acc m) = returned (foldl unflattenStep acc' m).
Proof.
  destruct acc, acc'; simpl; intros; simplify_eq; [done|].
  by rewrite !unflatten_panic_absorbs.
Qed.

Lemma apartKeys_permutation (l l' : list (string * nested A)) :
  l ≡ₚ l' -> apartKeys l -> apartKeys l'.
Proof.
  induction 1 as [|x l l' Hperm IH|x y l|l l' l'' _ IH1 _ IH2]; simpl.
  - done.
  - intros [Hx Hl]. split; [by rewrite <- Hperm|by apply IH].
  - intros [[Hyx Hy]%Forall_cons [Hx Hl]]. repeat split; try done.
    apply Forall_cons. split; [|done]. destruct Hyx. by split.
  - auto.
Qed.

Lemma unflatten_permutation (l l' : list (string * nested A)) acc :
  l ≡ₚ l' -> apartKeys l ->
  returned (foldl unflattenStep acc l) = returned (foldl unflattenStep acc l').
Proof.
  intros Hperm. revert acc.
  induction Hperm as [|x l l' Hperm IH|x y l|l l' l'' Hp1 IH1 Hp2 IH2]; intros acc; simpl.
  - done.
  - intros [_ Hl]. by apply IH.
  - intros [[Hyx _]%Forall_cons _]. apply unflatten_returned, unflattenStep_commute.
    destruct Hyx. by split.
  - intros Hl. rewrite IH1 by done. apply IH2. by eapply apartKeys_permutation.
Qed.

Lemma collision_free_apart (l : list (string * nested A)) :
  NoDup l.*1 ->
  (forall k1 k2, k1 ∈ l.*1 -> k2 ∈ l.*1 ->
     ~ (Split k1 Separator `prefix_of` Split k2 Separator /\
        Split k1 Separator <> Split k2 Separator)) ->
  apartKeys l.
Proof.
  intros Hdup Hfree. apply apartKeys_lookup. intros i j kv1 kv2 Hne H1 H2 Hpre.
  assert (l.*1 !! i = Some (fst kv1)) as Hi by by rewrite list_lookup_fmap, H1.
  assert (l.*1 !! j = Some (fst kv2)) as Hj by by rewrite list_lookup_fmap, H2.
  apply (Hfree (fst kv1) (fst kv2)).
  - by eapply list_elem_of_lookup_2.
  - by eapply list_elem_of_lookup_2.
  - split; [done|]. intros Heq%Split_inj. apply Hne.
    rewrite Heq in Hi. by apply (NoDup_lookup _ _ _ _ Hdup Hi Hj).
Qed.

(** With pairwise incomparable keys, no entry is stored below or above
    another, and the call returns. *)
Lemma apartKeys_returns (m : list (string * nested A)) :
  apartKeys m -> exists out, Unflattened m = Return out.
Proof.
  intros Hapart.
  destruct (unflatten_foldl m [] (∅ : gmap string (nested A))) as (out & Hret & _).
  - intros k v Hin. by apply elem_of_nil in Hin.
  - intros q x Hq Hl. by rewrite lookupPath_empty in Hl.
  - rewrite app_nil_l. apply NoDup_alt. intros i j k Hi Hj.
    rewrite list_lookup_fmap in Hi, Hj.
    destruct (m !! i) as [kv1|] eqn:H1; [|done].
    destruct (m !! j) as [kv2|] eqn:H2; [|done].
    simpl in Hi, Hj. injection Hi as Hi. injection Hj as Hj.
    destruct (decide (i = j)) as [|Hne]; [done|].
    destruct (apartKeys_inv m i j kv1 kv2 Hapart Hne H1 H2) as [Hpre _].
    destruct Hpre. by rewrite Hi, Hj.
  - rewrite app_nil_l.
    intros k1 k2 ([k1' v1] & -> & [i H1]%list_elem_of_lookup_1)%list_elem_of_fmap
                 ([k2' v2] & -> & [j H2]%list_elem_of_lookup_1)%list_elem_of_fmap
                 [Hpre Hne].
    destruct (decide (i = j)) as [->|Hij]; [by simplify_eq/=|].
    by destruct (apartKeys_inv m i j _ _ Hapart Hij H1 H2).
  - by exists out.
Qed.

(** A value that is not a mapping on the way to the last segment stops the
    walk at the type assertion. *)
Lemma bindAt_blocked parent p skeys last v a :
  p <> [] -> p `prefix_of` skeys ->
  lookupPath p (Mapping parent) = Some (Leaf a) ->
  bindAt parent skeys last v = Panic PanicNotAMap.
Proof.
  revert parent p. induction skeys as [|sk skeys IH]; intros parent p Hp Hpre Hl.
  - apply prefix_nil_inv in Hpre. done.
  - destruct p as [|s p]; [done|].
    pose proof (prefix_cons_inv_1 _ _ _ _ Hpre) as ->.
    apply prefix_cons_inv_2 in Hpre.
    simpl in Hl. simpl. destruct (parent !! sk) as [[b|sm|]|]; [done| | |done].
    + simpl in Hl. destruct p as [|s' p]; [done|].
      by rewrite (IH sm (s' :: p)).
    + simpl in Hl. by destruct p.
Qed.

Lemma unflattenStep_panic (acc : outcome (gmap string (nested A))) kv p :
  unflattenStep acc kv = Panic p ->
  acc = Panic p \/ p = PanicNotAMap \/ p = PanicNilMap.
Proof.
  destruct acc as [out|p']; [|intros [= <-]; by left].
  unfold unflattenStep. cbn [mbind outcome_bind].
  destruct (unsnoc_Split (fst kv)) as (init & last & ->).
  intros Hp. right. by eapply bindAt_panic.
Qed.

Lemma unflatten_panic (m : list (string * nested A)) acc p :
  (forall p', acc = Panic p' -> p' = PanicNotAMap \/ p' = PanicNilMap) ->
  foldl unflattenStep acc m = Panic p -> p = PanicNotAMap \/ p = PanicNilMap.
Proof.
  revert acc. induction m as [|kv m IH]; intros acc Hacc; simpl; [by apply Hacc|].
  apply IH. intros p' [->|Hp]%unflattenStep_panic; [by apply Hacc|done].
Qed.

End UnflattenOrder.

(** X17. For a flattened mapping with collision-free keys, the result of
    Unflattened does not depend on the order in which the range visits the
    entries: any two iteration orders give the same nested mapping. *)
Theorem Unflattened_order_independent {A} (flat : gmap string (nested A))
    (m1 m2 : list (string * nested A)) :
  m1 ≡ₚ map_to_list flat ->
  m2 ≡ₚ map_to_list flat ->
  (forall k1 k2, is_Some (flat !! k1) -> is_Some (flat !! k2) ->
     ~ (Split k1 Separator `prefix_of` Split k2 Separator /\
        Split k1 Separator <> Split k2 Separator)) ->
  Unflattened m1 = Unflattened m2.
Proof.
  intros H1 H2 Hfree.
  assert (apartKeys m1) as Hapart.
  { apply collision_free_apart.
    - rewrite H1. apply NoDup_fst_map_to_list.
    - assert (forall k, k ∈ m1.*1 -> is_Some (flat !! k)) as Hkeys.
      { intros k ([k' v] & -> & Hkv)%list_elem_of_fmap. exists v.
        apply elem_of_map_to_list. by rewrite <- H1. }
      intros k1 k2 Hk1 Hk2. apply Hfree; by apply Hkeys. }
  assert (m1 ≡ₚ m2) as Hperm by by rewrite H1, H2.
  destruct (apartKeys_returns m1 Hapart) as [out1 Hout1].
  destruct (apartKeys_returns m2 (apartKeys_permutation _ _ Hperm Hapart)) as [out2 Hout2].
  pose proof (unflatten_permutation m1 m2 (Return ∅) Hperm Hapart) as Heq.
  unfold Unflattened in *. rewrite Hout1, Hout2 in *. simpl in Heq. congruence.
Qed.

Lemma Unflattened_order_independent_witness :
  Unflattened exampleFlat = Unflattened (reverse exampleFlat).
Proof.
  assert (exampleFlat ≡ₚ map_to_list (list_to_map exampleFlat
                                        : gmap string (nested nat))) as Hperm.
  { symmetry. apply map_to_list_to_map.
    apply (bool_decide_unpack _). vm_compute. exact Logic.I. }
  apply (Unflattened_order_independent (list_to_map exampleFlat)).
  - exact Hperm.
  - rewrite <- Hperm. apply reverse_Permutation.
  - intros k1 k2 [v1 H1] [v2 H2].
    apply elem_of_list_to_map_2 in H1, H2.
    unfold exampleFlat in H1, H2. rewrite !elem_of_cons, elem_of_nil in H1, H2.
    destruct H1 as [H1|[H1|[H1|[]]]], H2 as [H2|[H2|[H2|[]]]];
      injection H1 as -> _; injection H2 as -> _;
      vm_compute; intros [[r Hr] Hne]; try discriminate; by apply Hne.
Defined.

(** X18. A key whose path runs through the path of the key visited just
    before it, where that key bound a value that is not a mapping, makes
    Unflattened panic, whatever the entries before and after the two: on the
    type assertion, when the entries up to the first of the two were stored,
    and as these entries made it panic otherwise. *)
Theorem Unflattened_key_below_leaf {A} (m m' : list (string * nested A))
    (k1 k2 : string) (a : A) (v : nested A) (r : list string) :
  Split k2 Separator = Split k1 Separator ++ r ->
  r <> [] ->
  Unflattened (m ++ (k1, Leaf a) :: (k2, v) :: m')
  = match Unflattened (m ++ [(k1, Leaf a)]) with
    | Return _ => Panic PanicNotAMap
    | Panic p => Panic p
    end.
Proof.
  intros Hsplit Hr. unfold Unflattened. rewrite !foldl_app. cbn [foldl].
  destruct (unflattenStep (foldl unflattenStep (Return ∅) m) (k1, Leaf a))
    as [out1|p] eqn:H1; [|apply unflatten_panic_absorbs].
  assert (unflattenStep (Return out1) (k2, v) = Panic PanicNotAMap) as ->;
    [|apply unflatten_panic_absorbs].
  destruct (foldl unflattenStep (Return ∅) m) as [out|p]; [|done].
  unfold unflattenStep in *. cbn [mbind outcome_bind fst snd] in *.
  destruct (unsnoc_Split k1) as (i1 & l1 & Hu1). rewrite Hu1 in H1.
  destruct (unsnoc_Split k2) as (i2 & l2 & Hu2). rewrite Hu2.
  apply unsnoc_Some in Hu1, Hu2. apply bindAt_bound in H1.
  rewrite <- Hu1 in H1.
  apply (bindAt_blocked out1 (Split k1 Separator) i2 l2 v a).
  - apply splitFrom_nonempty.
  - rewrite Hu2 in Hsplit.
    assert (exists r', r = r' ++ [l2] /\ i2 = Split k1 Separator ++ r') as (r' & -> & ->).
    { destruct (exists_last Hr) as (r' & x & ->).
      rewrite app_assoc in Hsplit. apply app_inj_tail in Hsplit as [-> ->]. eauto. }
    by apply prefix_app_r.
  - exact H1.
Qed.

Lemma Unflattened_key_below_leaf_witness :
  Unflattened ([("d", Leaf 3%nat)] ++ ("a", Leaf 1%nat) :: ("a.b.c", Leaf 2%nat)
                 :: [("e", Leaf 4%nat)])
  = Panic PanicNotAMap /\
  Unflattened ([("d", NilMapping); ("d.x", Leaf 3%nat)] ++ ("a", Leaf 1%nat)
                 :: ("a.b.c", Leaf 2%nat) :: [])
  = Panic PanicNilMap.
Proof.
  split.
  - apply (eq_trans (Unflattened_key_below_leaf [("d", Leaf 3%nat)] [("e", Leaf 4%nat)]
                       "a" "a.b.c" 1%nat (Leaf 2%nat) ["b"; "c"] eq_refl
                       ltac:(discriminate))).
    reflexivity.
  - apply (eq_trans (Unflattened_key_below_leaf [("d", NilMapping); ("d.x", Leaf 3%nat)] []
                       "a" "a.b.c" 1%nat (Leaf 2%nat) ["b"; "c"] eq_refl
                       ltac:(discriminate))).
    reflexivity.
Defined.

(** X19. In the other order nothing fails: a key whose path is a proper
    start of the path of the key stored just before it is bound to its
    value, and the mapping that held the earlier entry is replaced by it,
    so that the earlier path now resolves inside the new value only. *)
Theorem Unflattened_key_above_mapping {A} (m : list (string * nested A))
    (k1 k2 : string) (v1 v2 : nested A) (r : list string)
    (out2 : gmap string (nested A)) :
  Split k2 Separator = Split k1 Separator ++ r ->
  r <> [] ->
  Unflattened (m ++ [(k2, v2)]) = Return out2 ->
  exists out,
    Unflattened (m ++ [(k2, v2); (k1, v1)]) = Return out /\
    lookupPath (Split k1 Separator) (Mapping out) = Some v1 /\
    lookupPath (Split k2 Separator) (Mapping out) = lookupPath r v1.
Proof.
  intros Hsplit Hr. unfold Unflattened. rewrite !foldl_app. cbn [foldl].
  intros H2. rewrite H2.
  destruct (foldl unflattenStep (Return ∅) m) as [out0|p]; [|done].
  unfold unflattenStep in *. cbn [mbind outcome_bind fst snd] in *.
  destruct (unsnoc_Split k1) as (i1 & l1 & Hu1). rewrite Hu1.
  destruct (unsnoc_Split k2) as (i2 & l2 & Hu2). rewrite Hu2 in H2.
  apply unsnoc_Some in Hu1, Hu2. apply bindAt_bound in H2. rewrite <- Hu2 in H2.
  destruct (bindAt_returns out2 i1 l1 v1) as [out Hout].
  { intros p x Hp [t ->] Hl.
    rewrite Hsplit, Hu1, <- !app_assoc in H2.
    apply lookupPath_through in H2 as [sm Hsm]; [exists sm; congruence|].
    by destruct t. }
  exists out. split; [done|]. apply bindAt_bound in Hout. rewrite <- Hu1 in Hout.
  split; [done|]. by rewrite Hsplit, lookupPath_app, Hout.
Qed.

Lemma Unflattened_key_above_mapping_witness :
  exists out,
    Unflattened ([("d", Leaf 3%nat)] ++ [("a.b.c", Leaf 2%nat); ("a", Leaf 1%nat)])
    = Return out /\
    lookupPath ["a"] (Mapping out) = Some (Leaf 1%nat) /\
    lookupPath ["a"; "b"; "c"] (Mapping out) = None.
Proof.
  apply (Unflattened_key_above_mapping [("d", Leaf 3%nat)] "a" "a.b.c"
           (Leaf 1%nat) (Leaf 2%nat) ["b"; "c"]
           {[ "d" := Leaf 3%nat; "a" := Mapping {[ "b" := Mapping {[ "c" := Leaf 2%nat ]} ]} ]}).
  - reflexivity.
  - discriminate.
  - vm_compute. reflexivity.
Defined.

(** X20. Unflattened never fails on a slice bound, since a split key has at
    least one segment: it panics on the failed type assertion or on the
    store in a nil mapping and in no other way, and it panics only when two
    keys collide, that is when the path of one key is a start of the path of
    another. *)
Theorem Unflattened_panics_only_on_collision {A} (m : list (string * nested A))
    (p : panic) :
  Unflattened m = Panic p ->
  (p = PanicNotAMap \/ p = PanicNilMap) /\ ~ apartKeys m.
Proof.
  intros Hp. split.
  - by apply (unflatten_panic m (Return ∅)).
  - intros [out Hout]%apartKeys_returns. congruence.
Qed.

Lemma Unflattened_panics_only_on_collision_witness :
  ~ apartKeys [("a", Leaf 1%nat); ("a.b", Leaf 2%nat)] /\
  ~ apartKeys [("a", @NilMapping nat); ("a.b", Leaf 2%nat)].
Proof.
  split.
  - apply (Unflattened_panics_only_on_collision
             [("a", Leaf 1%nat); ("a.b", Leaf 2%nat)] PanicNotAMap).
    reflexivity.
  - apply (Unflattened_panics_only_on_collision
             [("a", NilMapping); ("a.b", Leaf 2%nat)] PanicNilMap).
    reflexivity.
Defined.

(** * Further properties of the decode path *)

(** ** BytesToType: strings, byte slices, unknown tags *)

(** X1. A fixed-width envelope decoded into a string, or into a chain of
    pointers that ends in a string, always succeeds: the whole payload
    becomes the text, verbatim, whatever the byte order of the tag is, and
    every pointer of the chain is allocated. *)
Theorem BytesToType_string env tag bo typ (payload : list byte) :
  fixedOrder tag = Some bo ->
  indirect typ = TString ->
  BytesToType env (DefaultVersion env :: tag :: payload) typ
  = Return (Some (chain typ (VString payload)), None).
Proof.
  intros Htag Hit.
  rewrite (BytesToType_fixed_spec _ _ bo _ (VString []));
    [|done|by rewrite Hit|by rewrite Hit].
  unfold fixedWidth, readsUnexported, fixedInstance, platformKind.
  rewrite Hit. cbn [Type_Kind]. rewrite ReadFull_all. reflexivity.
Qed.

Lemma BytesToType_string_witness :
  BytesToType amd64 [Byte.x01; Byte.x02; Byte.x68; Byte.x69] (TPtr TString)
  = Return (Some (VPtr TString (Some (VString [Byte.x68; Byte.x69]))), None).
Proof.
  apply (BytesToType_string amd64 Byte.x02 LittleEndian (TPtr TString)
           [Byte.x68; Byte.x69]); reflexivity.
Defined.

Lemma orderUint_singleton bo (b : byte) : orderUint bo [b] = byteZ b.
Proof. destruct bo; unfold orderUint, beUint; simpl; lia. Qed.

Lemma decodeElems_bytes env bo (data : list byte) :
  decodeElems env bo (TUint U8) (length data) data = map byteValue data.
Proof.
  induction data as [|b data IH]; [done|].
  cbn [length decodeElems decodeValue decodeBasic basicSize take drop map].
  rewrite (take_0 data), drop_0, orderUint_singleton, IH. reflexivity.
Qed.

Lemma Value_Bytes_bytesValue (bs : list byte) :
  Value_Bytes (Some (map byteValue bs)) = bs.
Proof.
  unfold Value_Bytes. induction bs as [|b bs IH]; [done|].
  cbn [map]. rewrite IH. unfold byteValue at 1, byteZ.
  by rewrite N2Z.id, Byte.of_to_N.
Qed.

(** X2. A fixed-width envelope decoded into a byte slice always succeeds and
    yields a non-nil slice that holds exactly the bytes of the payload, in
    order: reading them back with [Bytes] gives the payload. *)
Theorem BytesToType_byte_slice env tag bo (payload : list byte) :
  fixedOrder tag = Some bo ->
  BytesToType env (DefaultVersion env :: tag :: payload) (TSlice (TUint U8))
  = Return (Some (bytesValue (Some payload)), None) /\
  Value_Bytes (Some (map byteValue payload)) = payload.
Proof.
  intros Htag. split; [|apply Value_Bytes_bytesValue].
  rewrite (BytesToType_fixed_spec _ _ bo _ (VSlice (TUint U8) (Some [])));
    [|done|done|by intros e [= <-]].
  unfold fixedWidth, readsUnexported, fixedInstance, platformKind, sliceCount.
  cbn [indirect Type_Kind sizeof fixedSize basicSize mbind option_bind setsReadOnly
       default andb].
  change (Size env (TUint U8)) with 1. rewrite Z.div_1_r, Nat2Z.id, !Nat.mul_1_l.
  rewrite ReadFull_all, take_ge, decodeElems_bytes by lia.
  by rewrite andb_false_r.
Qed.

Lemma BytesToType_byte_slice_witness :
  BytesToType i386 [Byte.x01; Byte.x01; Byte.x0a; Byte.x0b] (TSlice (TUint U8))
  = Return (Some (bytesValue (Some [Byte.x0a; Byte.x0b])), None) /\
  Value_Bytes (Some (map byteValue [Byte.x0a; Byte.x0b])) = [Byte.x0a; Byte.x0b].
Proof.
  apply (BytesToType_byte_slice i386 Byte.x01 BigEndian [Byte.x0a; Byte.x0b]).
  reflexivity.
Defined.




(** ** BytesToType: pointers, and when it panics *)








(** ** BytesToType: the type of what it returns *)

Lemma typeOf_zero t : typeOf (zero t) = t.
Proof.
  induction t as [ | | | | | | |n e| | | | | | |name fs Hfs|name []]
    using type_nested_ind; simpl; try done.
  - by rewrite length_replicate.
  - f_equal. induction Hfs as [|f fs Hf _ IH]; simpl; [done|].
    rewrite Hf, IH. by destruct f.
Qed.

Lemma typeOf_decodeBasic env bo b bs :
  typeOf (fst (decodeBasic env bo b bs)) = basicType b.
Proof. by destruct b as [ |[]|[]|[]|[]| ]. Qed.

Lemma decodeValue_array env bo e n bs :
  exists vs rest,
    decodeValue env bo (TArray n e) bs = (VArray e vs, rest) /\ length vs = n.
Proof.
  revert bs. induction n as [|n IH]; intros bs.
  - by exists [], bs.
  - simpl. destruct (decodeValue env bo e bs) as [v r].
    destruct (IH r) as (vs & rest & Hdec & Hlen). simpl in Hdec.
    match type of Hdec with
    | (let '(_, _) := ?x in _) = _ => destruct x as [vs' rest']
    end.
    simplify_eq. by exists (v :: vs), rest.
Qed.

Lemma decodeValue_struct env bo name fs bs :
  Forall (fun f => forall bs, typeOf (fst (decodeValue env bo (snd f) bs)) = snd f) fs ->
  exists vs rest,
    decodeValue env bo (TStruct name fs) bs = (VStruct name vs, rest) /\
    map (fun f => (fst f, typeOf (snd f))) vs = fs.
Proof.
  intros Hfs. revert bs. induction Hfs as [|f fs Hf _ IH]; intros bs.
  - by exists [], bs.
  - simpl.
    set (first := if String.eqb (fst f) "_"
                  then (zero (snd f), drop (default 0%nat (sizeof (snd f))) bs)
                  else decodeValue env bo (snd f) bs).
    assert (typeOf (fst first) = snd f) as Hfirst.
    { unfold first. destruct (String.eqb (fst f) "_"); [apply typeOf_zero|apply Hf]. }
    destruct first as [v r].
    destruct (IH r) as (vs & rest & Hdec & Hty). simpl in Hdec.
    match type of Hdec with
    | (let '(_, _) := ?x in _) = _ => destruct x as [vs' rest']
    end.
    simplify_eq. exists ((fst f, v) :: vs), rest. split; [done|].
    simpl in *. rewrite Hfirst. by destruct f.
Qed.

Lemma typeOf_decodeValue env bo t bs : typeOf (fst (decodeValue env bo t bs)) = t.
Proof.
  revert bs.
  induction t as [ |[]|[]|[]|[]| | |n e IHe| | | | | | |name fs Hfs|name b]
    using type_nested_ind; intros bs; try done.
  - destruct (decodeValue_array env bo e n bs) as (vs & rest & -> & Hlen).
    simpl. by rewrite Hlen.
  - destruct (decodeValue_struct env bo name fs bs Hfs) as (vs & rest & -> & Hty).
    simpl. by rewrite Hty.
  - cbn [decodeValue]. pose proof (typeOf_decodeBasic env bo b bs) as Hb.
    destruct (decodeBasic env bo b bs) as [v r]. simpl in *. rewrite Hb.
    by destruct b.
Qed.

Lemma typeOf_readValue env bo t bs : typeOf (readValue env bo t bs) = t.
Proof.
  unfold readValue.
  destruct t as [ | | |[]| | | | | | | | | | | | ]; try apply typeOf_decodeValue.
  destruct (binaryFastFloats env); [done|apply typeOf_decodeValue].
Qed.

Lemma typeOf_chain typ x : typeOf x = indirect typ -> typeOf (chain typ x) = typ.
Proof. by destruct typ. Qed.

Lemma typeOf_fixedInstance env bo typ payload :
  typeOf (fixedInstance env bo typ payload) = typ.
Proof.
  unfold fixedInstance.
  destruct (Type_Kind (indirect typ)) eqn:Hk;
    try (destruct typ; first [done | apply typeOf_readValue]);
    apply typeOf_chain;
    destruct (indirect typ) as [ |[]|[]|[]|[]| | |n e|d e| | |k e|t'|e|name fs
                                |name [ |[]|[]|[]|[]| ]];
    done.
Qed.

(** X5. With the Empty tag or a fixed-width tag, whatever value BytesToType
    returns, with or without the leftover-bytes error, is a value of the
    type that was asked for. *)
Theorem BytesToType_returns_the_type env tag (payload : list byte) typ v e :
  tag ∈ [ZeroEncoding; BigEndianEncoding; LittleEndianEncoding] ->
  BytesToType env (DefaultVersion env :: tag :: payload) typ = Return (Some v, e) ->
  typeOf v = typ.
Proof.
  rewrite !elem_of_cons, elem_of_nil. intros [->|Htag].
  - unfold BytesToType. rewrite bool_decide_true by done. cbn -[sliceFrom].
    rewrite sliceFrom_cons. cbn [mbind outcome_bind].
    destruct (IsNillableType typ) eqn:Hnil; [done|].
    destruct (nonNillable_initial typ Hnil) as (-> & -> & Hbox).
    cbn [mbind outcome_bind]. intros H.
    assert (chain typ (zero typ) = zero typ) as Hchain by by destruct typ.
    rewrite Hchain, Hbox in H.
    rewrite !(bool_decide_true (ZeroEncoding = ZeroEncoding)) in H by done.
    cbn [andb] in H. simplify_eq. apply typeOf_zero.
  - assert (exists bo, fixedOrder tag = Some bo) as [bo Hbo].
    { destruct Htag as [->|[->|[]]]; by eexists. }
    intros Hret.
    destruct (BytesToType_fixed_returns _ _ _ _ _ _ Hbo Hret) as (_ & _ & Hr).
    destruct (fixedWidth env typ payload) as [w|]; [|by simplify_eq].
    repeat case_decide; cbv zeta in Hr; repeat case_match; destruct_and?; simplify_eq;
      first [apply typeOf_fixedInstance | apply typeOf_chain, typeOf_zero].
Qed.

Lemma BytesToType_returns_the_type_witness :
  typeOf (VUint U16 258) = TUint U16.
Proof.
  apply (BytesToType_returns_the_type amd64 Byte.x01
           [Byte.x01; Byte.x02; Byte.x03] (TUint U16) (VUint U16 258)
           (Some ErrUnreadData)).
  - rewrite !elem_of_cons. right. by left.
  - reflexivity.
Defined.

(** ** BytesToType: decoded integers are in range *)

Lemma toSigned_range bits x :
  0 < bits -> 0 <= x < 2 ^ bits -> fitsInt bits (toSigned bits x).
Proof.
  intros Hbits Hx. unfold fitsInt, toSigned.
  assert (2 ^ bits = 2 * 2 ^ (bits - 1)) as Hpow.
  { rewrite <- Z.pow_succ_r by lia. f_equal. lia. }
  case_match eqn:Hlt; [apply Z.ltb_lt in Hlt|apply Z.ltb_ge in Hlt]; lia.
Qed.

Lemma decodeValue_sized_inRange env bo typ w (data : list byte) :
  sizedInt typ = true -> fixedSize typ = Some w -> length data = w ->
  integerInRange env typ (fst (decodeValue env bo typ data)).
Proof.
  intros Hs Hw Hlen. pose proof (orderUint_bound bo data) as Hb. rewrite Hlen in Hb.
  destruct typ as [ |[]|[]| | | | | | | | | | | | | ]; try discriminate;
    simpl in Hw; simplify_eq; rewrite <- Hw in *;
    cbn [decodeValue decodeBasic basicSize fixedSize fst integerInRange];
    rewrite take_ge by lia;
    (split; [done|]); unfold Size; cbn [fixedSize];
    try (apply toSigned_range; [lia|]); exact Hb.
Qed.

Lemma zero_inRange env typ :
  sizedInt typ = true \/ platformInt typ = true ->
  0 < Size env typ -> integerInRange env typ (zero typ).
Proof.
  intros Hty Hsz.
  assert (0 < 2 ^ (Size env typ * 8 - 1)) by (apply Z.pow_pos_nonneg; lia).
  assert (0 < 2 ^ (Size env typ * 8)) by (apply Z.pow_pos_nonneg; lia).
  destruct typ as [ |[]|[]| | | | | | | | | | | | | ];
    try (by destruct Hty); simpl; (split; [done|]); unfold fitsInt, fitsUint; lia.
Qed.

(** X6. Whatever integer a fixed-width envelope decodes to lies within the
    range of its target type: within the width of a sized integer type, and,
    for int, uint and uintptr, within the width these have on the platform,
    thanks to the overflow check. *)
Theorem BytesToType_integer_in_range env tag bo typ (payload : list byte) v e :
  fixedOrder tag = Some bo ->
  sizedInt typ = true \/
    (platformInt typ = true /\ (Size env typ = 4 \/ Size env typ = 8)) ->
  BytesToType env (DefaultVersion env :: tag :: payload) typ = Return (Some v, e) ->
  integerInRange env typ v.
Proof.
  intros Htag Hty Hret.
  assert (indirect typ = typ) as Hit
    by (destruct Hty as [?|[? _]]; destruct typ; done).
  destruct (BytesToType_fixed_returns _ _ _ _ _ _ Htag Hret) as (_ & _ & Hr).
  rewrite Hit in Hr. destruct Hty as [Hs|[Hp Hsz]].
  - assert (exists w, fixedSize typ = Some w /\ (0 < w)%nat) as (w & Hw & Hpos).
    { destruct typ as [ |[]|[]| | | | | | | | | | | | | ]; try done;
        eexists; (split; [reflexivity|lia]). }
    assert (fixedWidth env typ payload = Some w) as Hfw.
    { destruct typ as [ |[]|[]| | | | | | | | | | | | | ]; done. }
    assert (platformKind typ = false) as Hpk
      by (destruct typ as [ |[]|[]| | | | | | | | | | | | | ]; done).
    rewrite Hfw, Hpk in Hr. cbv zeta in Hr. cbn [andb] in Hr.
    assert (chain typ (zero typ) = zero typ) as Hchain by by destruct typ.
    repeat case_decide; destruct_and?; simplify_eq;
      rewrite ?Hchain, ?(fixedInstance_sizedInt _ _ _ w) by done.
    all: first [ apply (decodeValue_sized_inRange _ _ _ w);
                 [done|done|rewrite length_take; lia]
               | apply zero_inRange; [by left|]; unfold Size; rewrite Hw; lia ].
  - assert (fixedWidth env typ payload = Some 8%nat) as Hfw
      by (destruct typ as [ |[]|[]| | | | | | | | | | | | | ]; done).
    assert (platformKind typ = true) as Hpk
      by (destruct typ as [ |[]|[]| | | | | | | | | | | | | ]; done).
    rewrite Hfw, Hpk in Hr. cbv zeta in Hr. cbn [andb] in Hr.
    assert (chain typ (zero typ) = zero typ) as Hchain by by destruct typ.
    repeat case_decide; try case_match; destruct_and?; simplify_eq;
      rewrite ?Hchain, ?fixedInstance_platformInt by done.
    all: try (apply zero_inRange; [by right|lia]).
    all: assert (fits env typ (intermediate bo typ (take 8 payload))) as Hfit
           by (apply overflows_fits; [done|rewrite length_take; lia|done]).
    all: destruct typ as [ |[]|[]| | | | | | | | | | | | | ]; try discriminate; by split.
Qed.

Lemma BytesToType_integer_in_range_witness :
  integerInRange i386 (TInt I) (VInt I (-2147483648)) /\
  integerInRange amd64 (TUint U8) (VUint U8 255).
Proof.
  split.
  - apply (BytesToType_integer_in_range i386 Byte.x02 LittleEndian (TInt I)
             [Byte.x00; Byte.x00; Byte.x00; Byte.x80;
              Byte.xff; Byte.xff; Byte.xff; Byte.xff] _ None).
    + reflexivity.
    + right. split; [reflexivity|]. left. reflexivity.
    + reflexivity.
  - apply (BytesToType_integer_in_range amd64 Byte.x01 BigEndian (TUint U8)
             [Byte.xff; Byte.x00] _ (Some ErrUnreadData)).
    + reflexivity.
    + left. reflexivity.
    + reflexivity.
Defined.

(** ** BytesToType: slices of fixed-width elements *)

Lemma length_decodeElems env bo e n (bs : list byte) :
  length (decodeElems env bo e n bs) = n.
Proof.
  revert bs. induction n as [|n IH]; intros bs; [done|].
  simpl. destruct (decodeValue env bo e bs). simpl. by rewrite IH.
Qed.

(** X22. A fixed-width envelope decoded into a slice of elements of a
    boolean or sized numeric type, or of a type defined from one, never runs
    short: the slice gets as many elements as fit in the payload (its length
    divided by the element size), decoded in order from the front as
    [binary.Read] decodes them through reflection (a float32, and each part
    of a complex64, by way of a float64), and the call reports the
    unread-data error, with the slice, exactly when the payload length is not
    a multiple of the element size. *)
Theorem BytesToType_slice_target env tag bo (payload : list byte) e s :
  fixedOrder tag = Some bo ->
  fixedSize e = Some s ->
  let n := (length payload / s)%nat in
  let elems := decodeElems env bo e n (take (s * n) payload) in
  BytesToType env (DefaultVersion env :: tag :: payload) (TSlice e)
  = Return (Some (VSlice e (Some elems)),
            if decide (length payload mod s = 0)%nat then None else Some ErrUnreadData) /\
  length elems = n.
Proof.
  intros Htag Hs n elems. split; [|apply length_decodeElems].
  assert (s <> 0)%nat as Hs0
    by (destruct e as [ |[]|[]|[]|[]| | | | | | | | | | |? [ |[]|[]|[]|[]| ]];
        simplify_eq/=; lia).
  assert (Size env e = Z.of_nat s) as Hsize by (unfold Size; by rewrite Hs).
  assert (setsReadOnly env false e = false) as Hro
    by (destruct e; simplify_eq/=; try done; by rewrite Hs).
  rewrite (BytesToType_fixed_spec _ _ bo _ (VSlice e (Some [])));
    [|done|done|intros e' [= <-]; lia].
  unfold fixedWidth, readsUnexported, fixedInstance, platformKind, sliceCount.
  cbn [indirect Type_Kind]. rewrite (fixedSize_sizeof _ _ Hs), Hro, andb_false_r.
  cbn [mbind option_bind default andb].
  rewrite Hsize, <- Nat2Z.inj_div, Nat2Z.id. fold n.
  pose proof (Nat.div_mod_eq (length payload) s) as Hdiv. fold n in Hdiv.
  rewrite ReadFull_enough by lia. cbv zeta.
  fold elems. rewrite length_drop. f_equal. f_equal.
  repeat case_decide; try done; lia.
Qed.

Lemma BytesToType_slice_target_witness :
  BytesToType amd64 [Byte.x01; Byte.x01; Byte.x01; Byte.x02; Byte.x03] (TSlice (TUint U16))
  = Return (Some (VSlice (TUint U16) (Some [VUint U16 258])), Some ErrUnreadData) /\
  BytesToType amd64 [Byte.x01; Byte.x01; Byte.x7f; Byte.xa0; Byte.x00; Byte.x00]
    (TSlice (TFloat F32))
  = Return (Some (VSlice (TFloat F32) (Some [VFloat F32 2145386496])), None).
Proof.
  split.
  - apply (proj1 (BytesToType_slice_target amd64 Byte.x01 BigEndian
                    [Byte.x01; Byte.x02; Byte.x03] (TUint U16) 2 eq_refl eq_refl)).
  - apply (proj1 (BytesToType_slice_target amd64 Byte.x01 BigEndian
                    [Byte.x7f; Byte.xa0; Byte.x00; Byte.x00] (TFloat F32) 4
                    eq_refl eq_refl)).
Defined.

(** ** UnmarshalMap: what an entry writes, and what it leaves alone *)


(** Where a prefix of the key leads to a field, [walk] ends as the walk of
    the rest of the key from there does. *)
Lemma walk_prefix env pre rest a fv a' x k :
  locate env a pre fv = Some (a', x) ->
  snd (walk env (pre ++ rest) a fv k) = snd (walk env rest a' x k).
Proof.
  revert a fv. induction pre as [|sk pre IH]; intros a fv Hloc.
  - simpl in *. by simplify_eq.
  - simpl in Hloc. destruct (pointeeAt a fv) as [[a1 y]|] eqn:Hp; [|done].
    destruct y as [ | | | | | | | | | | | | | |name fs| ]; try done.
    destruct (fieldNamed sk fs) as [z|] eqn:Hf; [|done]. simpl in Hloc.
    cbn [app]. rewrite (walk_step _ _ _ _ _ _ _ _ _ Hp), Hf. cbv zeta. cbn [snd].
    by apply IH.
Qed.






Lemma Value_Bytes_default (bs : option (list byte)) :
  Value_Bytes (map byteValue <$> bs) = default [] bs.
Proof. destruct bs as [bs|]; [apply Value_Bytes_bytesValue|done]. Qed.

Lemma assign_bytes env mk bs a fv :
  assign env mk (Some (bytesValue bs)) a fv
  = match BytesToType env (default [] bs) (typeOf fv) with
    | Panic p => (fv, Panicked p)
    | Return (_, Some err) => (fv, Failure err)
    | Return (Some iv, None) => Value_Set a fv iv
    | Return (None, None) => (fv, Success)
    end.
Proof.
  unfold assign, bytesValue. cbn [typeOf Type_Kind ukind_Kind scalarKind].
  rewrite bool_decide_true by done. rewrite Value_Bytes_default. reflexivity.
Qed.



(** X10. An entry whose value is neither nil, nor a scalar, nor a byte slice
    (a map, a struct, a pointer, a slice of anything but bytes, a complex
    number, a uintptr, ...) makes UnmarshalMap fail with the InvalidData
    error that names the kind of the value; the field its key leads to is
    left as it was. *)
Theorem UnmarshalMap_unmatched_value env pre mk rmv post T name fs rv1 a fv :
  mapUnmarshaler env (TPtr T) = None ->
  entries env pre Settable (VStruct name fs) = (rv1, Success) ->
  locate env Settable (Split mk Separator) rv1 = Some (a, fv) ->
  scalarKind (Type_Kind (typeOf rmv)) = false ->
  (forall e elems, rmv = VSlice e elems -> Type_Kind e <> Uint8) ->
  exists rv',
    UnmarshalMap env (pre ++ (mk, Some rmv) :: post)
      (Some (VPtr T (Some (VStruct name fs))))
    = (Some (VPtr T (Some rv')),
       Failure (ErrInvalidData (UnmatchedValueKind (Type_Kind (typeOf rmv))))) /\
    resolve (Split mk Separator) rv' = Some fv.
Proof.
  intros Hmu Hpre Hloc Hscalar Hbytes.
  destruct (UnmarshalMap_entry env pre mk (Some rmv) post T name fs rv1 a fv
              Hmu Hpre Hloc) as (rv' & Hfield & _ & Hcall).
  assert (assign env mk (Some rmv) a fv
          = (fv, Failure (ErrInvalidData (UnmatchedValueKind (Type_Kind (typeOf rmv))))))
    as Hassign.
  { unfold assign. rewrite Hscalar. destruct rmv; try done.
    by rewrite bool_decide_false by by eapply Hbytes. }
  rewrite Hassign in Hfield, Hcall. by exists rv'.
Qed.

Lemma UnmarshalMap_unmatched_value_witness :
  exists rv',
    UnmarshalMap amd64 [("n", Some (VComplex C64 0 0))]
      (Some (VPtr exampleTarget (Some (zero exampleTarget))))
    = (Some (VPtr exampleTarget (Some rv')),
       Failure (ErrInvalidData (UnmatchedValueKind Complex64))) /\
    resolve ["n"] rv' = Some (VUint U8 0).
Proof.
  apply (UnmarshalMap_unmatched_value amd64 [] "n" (VComplex C64 0 0) []
           exampleTarget "Target" [("a", zero exampleInner); ("n", zero (TUint U8))]
           (zero exampleTarget) ReadOnly (VUint U8 0)); try reflexivity.
  intros e elems Heq. discriminate Heq.
Defined.

(** The field must be reached, not only named: below a nil pointer held in a
    field that is not exported the loop cannot allocate, and the call panics
    before the value of the entry is looked at. *)
Example UnmarshalMap_nil_pointer_below_unexported :
  resolve ["p"; "X"] (zero hiddenTarget) = Some (VInt I 0) /\
  locate amd64 Settable ["p"; "X"] (zero hiddenTarget) = None /\
  UnmarshalMap amd64 [("p.X", Some (VComplex C64 0 0))]
    (Some (VPtr hiddenTarget (Some (zero hiddenTarget))))
  = (Some (VPtr hiddenTarget (Some (zero hiddenTarget))),
     Panicked PanicUnexportedField).
Proof. repeat split; reflexivity. Qed.

(** ** UnmarshalMap: keys that do not resolve, and targets that cannot be set *)

Lemma walk_unresolved env sk rest a x a' y k :
  pointeeAt a x = Some (a', y) ->
  (forall sname fields, y = VStruct sname fields -> fieldNamed sk fields = None) ->
  snd (walk env (sk :: rest) a x k)
  = Panicked (match y with
              | VStruct _ _ => PanicTypeOfZeroValue
              | _ => PanicFieldByName (Type_Kind (typeOf y))
              end).
Proof.
  intros Hp Hmissing. cbn [walk]. rewrite (deref_pointeeAt _ _ _ _ _ Hp). cbn [snd].
  destruct y as [ | | | | | | | | | | | | | |sname fields| ]; try done.
  rewrite withField_spec, (Hmissing sname fields) by done. reflexivity.
Qed.

(** X11. A key with a segment that does not resolve never yields an error
    (for structs without embedded fields): once the segments before it have
    led to a value, and the pointers found there to the value [y], a segment
    that names no field of the struct [y] panics in the construction of the
    field-not-found message, and a segment looked up in a value [y] that is
    not a struct panics in FieldByName. This holds whatever the value of the
    entry is (even nil) and whatever entries follow. *)
Theorem UnmarshalMap_unresolved_key_panics
    env pre mk mv post T name fs rv1 path sk rest a x a' y :
  mapUnmarshaler env (TPtr T) = None ->
  entries env pre Settable (VStruct name fs) = (rv1, Success) ->
  Split mk Separator = path ++ sk :: rest ->
  locate env Settable path rv1 = Some (a, x) ->
  pointeeAt a x = Some (a', y) ->
  (forall sname fields, y = VStruct sname fields -> fieldNamed sk fields = None) ->
  snd (UnmarshalMap env (pre ++ (mk, mv) :: post)
         (Some (VPtr T (Some (VStruct name fs)))))
  = Panicked (match y with
              | VStruct _ _ => PanicTypeOfZeroValue
              | _ => PanicFieldByName (Type_Kind (typeOf y))
              end).
Proof.
  intros Hmu Hpre Hsplit Hloc Hp Hmissing.
  rewrite UnmarshalMap_pointer_struct by (done || by destruct pre). cbn [snd].
  rewrite entries_app, Hpre. cbn [entries fst snd]. rewrite Hsplit.
  pose proof (walk_prefix env path (sk :: rest) _ rv1 _ x (assign env mk mv) Hloc) as Hw.
  rewrite (walk_unresolved env sk rest a x a' y _ Hp Hmissing) in Hw.
  destruct (walk env (path ++ sk :: rest) Settable rv1 (assign env mk mv)) as [rv' st].
  cbn [snd] in Hw. by subst st.
Qed.

Lemma UnmarshalMap_unresolved_key_panics_witness :
  snd (UnmarshalMap amd64 [("N", Some (VUint U8 7)); ("A.X.y", None)]
         (Some (VPtr exportedTarget (Some (zero exportedTarget)))))
  = Panicked (PanicFieldByName Int) /\
  snd (UnmarshalMap amd64 [("a.b.c", Some (VInt I 1))]
         (Some (VPtr exampleTarget (Some (zero exampleTarget)))))
  = Panicked PanicTypeOfZeroValue.
Proof.
  split.
  - apply (UnmarshalMap_unresolved_key_panics amd64 [("N", Some (VUint U8 7))]
             "A.X.y" None [] exportedTarget "Target"
             [("A", zero exportedInner); ("N", zero (TUint U8))]
             (VStruct "Target" [("A", zero exportedInner); ("N", VUint U8 7)])
             ["A"; "X"] "y" [] Settable (VInt I 0) Settable (VInt I 0));
      try reflexivity.
    intros sname fields Heq. discriminate Heq.
  - apply (UnmarshalMap_unresolved_key_panics amd64 [] "a.b.c" (Some (VInt I 1)) []
             exampleTarget "Target"
             [("a", zero exampleInner); ("n", zero (TUint U8))]
             (zero exampleTarget) ["a"] "b" ["c"] ReadOnly (zero exampleInner)
             ReadOnly (zero exampleInner));
      try reflexivity.
    intros sname fields Heq. injection Heq as <- <-. reflexivity.
Defined.

(** X12. Without a custom unmarshaler, no call of UnmarshalMap ever returns
    the field-not-found error, for any map, any target and any iteration
    order. *)
Theorem UnmarshalMap_field_not_found_unreachable env m v sk t :
  (forall ty, mapUnmarshaler env ty = None) ->
  snd (UnmarshalMap env m v) <> Failure (ErrFieldNotFound sk t).
Proof. apply UnmarshalMap_never_field_not_found. Qed.

Lemma UnmarshalMap_field_not_found_unreachable_witness :
  snd (UnmarshalMap amd64 [("a.b.c", Some (VInt I 1))]
         (Some (VPtr exampleTarget (Some (zero exampleTarget)))))
  <> Failure (ErrFieldNotFound "b" exampleInner).
Proof.
  apply (UnmarshalMap_field_not_found_unreachable amd64). intros ty. reflexivity.
Defined.

Lemma indirected_endsNil a x k :
  endsNil x -> indirected a x k = (x, Failure (ErrInvalidData IndirectedNil)).
Proof.
  revert a. induction x as [e y IH|y Hy] using value_ptr_ind; intros a Hnil.
  - simpl in *. by rewrite IH.
  - destruct y as [ | | | | | | | | | | | |e [y|]| | | ]; try done.
    by destruct (Hy e y).
Qed.

(** X13. Without a custom unmarshaler: an empty map is a success that leaves
    any target, even a nil one, as it is; a map that is not empty fails with
    the indirected-value-is-nil InvalidData error, and leaves the target as
    it is, when the target is nil or is a chain of pointers that ends in a
    nil pointer. *)
Theorem UnmarshalMap_nil_target env m v :
  (forall ty, mapUnmarshaler env ty = None) ->
  (m = [] -> UnmarshalMap env m v = (v, Success)) /\
  (m <> [] -> v = None \/ (exists x, v = Some x /\ endsNil x) ->
   UnmarshalMap env m v = (v, Failure (ErrInvalidData IndirectedNil))).
Proof.
  intros Hmu. split.
  - intros ->. unfold UnmarshalMap. destruct v as [x|]; [by rewrite Hmu|done].
  - intros Hm Hv. assert (length m <> 0%nat) as Hlen by by destruct m.
    unfold UnmarshalMap. destruct Hv as [->|(x & -> & Hnil)].
    + by case_decide.
    + rewrite Hmu. case_decide; [done|]. by rewrite indirected_endsNil.
Qed.

Lemma UnmarshalMap_nil_target_witness :
  UnmarshalMap amd64 [] None = (None, Success) /\
  UnmarshalMap amd64 exampleScalars
    (Some (VPtr (TPtr exportedTarget) (Some (VPtr exportedTarget None))))
  = (Some (VPtr (TPtr exportedTarget) (Some (VPtr exportedTarget None))),
     Failure (ErrInvalidData IndirectedNil)).
Proof.
  split.
  - apply (UnmarshalMap_nil_target amd64 [] None); [intros ty|]; reflexivity.
  - apply (UnmarshalMap_nil_target amd64 exampleScalars).
    + intros ty. reflexivity.
    + discriminate.
    + right. eexists. split; [reflexivity|]. exact Logic.I.
Defined.

Lemma setField_same sk fs y : fieldNamed sk fs = Some y -> setField sk fs y = fs.
Proof.
  induction fs as [|f fs IH]; simpl; [done|].
  destruct (String.eqb (fst f) sk); intros Hf; simplify_eq.
  - by destruct f.
  - by rewrite IH.
Qed.

Lemma walk_direct env p a fv x k st :
  direct p fv = Some x ->
  k (foldl (Field_access env) a p) x = (x, st) ->
  walk env p a fv k = (fv, st).
Proof.
  revert a fv. induction p as [|sk p IH]; intros a fv Hdir Hk.
  - simpl in *. by simplify_eq.
  - simpl in Hdir. destruct fv as [ | | | | | | | | | | | | | |name fs| ]; try done.
    destruct (fieldNamed sk fs) as [y|] eqn:Hf; [|done]. simpl in Hdir.
    cbn [walk deref]. rewrite withField_spec, Hf, (IH _ y Hdir Hk). cbn [fst snd].
    by rewrite setField_same.
Qed.

(** The access to a field reached through struct fields from a value that is
    not addressable: [Value.Set] refuses it, as obtained through an
    unexported field when one of the names is not exported, and as
    unaddressable otherwise. *)
Lemma direct_access env p :
  mustBeAssignable (foldl (Field_access env) Unaddressable p)
  = Some (if forallb (IsExported env) p then PanicUnaddressable
          else PanicUnexportedField).
Proof.
  assert (forall q, foldl (Field_access env) ReadOnly q = ReadOnly) as Hro.
  { induction q as [|sk q IH]; [done|]. simpl. unfold Field_access at 2.
    by destruct (IsExported env sk). }
  induction p as [|sk p IH]; [done|]. simpl. unfold Field_access at 2.
  destruct (IsExported env sk); [exact IH|]. by rewrite Hro.
Qed.

(** X14. A struct passed to UnmarshalMap by value, not through a pointer,
    cannot be populated: the first entry of the iteration whose key leads,
    through struct fields alone, to a field of the kind of its scalar value
    panics in Value.Set, and the target is left as it was. The panic is the
    one on an unaddressable value when every segment of the key names an
    exported field, and the one on a value obtained through an unexported
    field otherwise. *)
Theorem UnmarshalMap_by_value_target env mk mv post name fs fv :
  mapUnmarshaler env (typeOf (VStruct name fs)) = None ->
  direct (Split mk Separator) (VStruct name fs) = Some fv ->
  scalarKind (Type_Kind (typeOf mv)) = true ->
  Type_Kind (typeOf mv) = Type_Kind (typeOf fv) ->
  UnmarshalMap env ((mk, Some mv) :: post) (Some (VStruct name fs))
  = (Some (VStruct name fs),
     Panicked (if forallb (IsExported env) (Split mk Separator)
               then PanicUnaddressable else PanicUnexportedField)).
Proof.
  intros Hmu Hdir Hscalar Hkind. unfold UnmarshalMap. rewrite Hmu.
  case_decide; [done|]. cbn [indirected entries fst snd].
  rewrite (walk_direct _ _ _ _ fv _
             (Panicked (if forallb (IsExported env) (Split mk Separator)
                        then PanicUnaddressable else PanicUnexportedField)));
    [done..|].
  unfold assign, Value_Set. rewrite Hscalar, bool_decide_true by done. cbn [negb].
  by rewrite direct_access.
Qed.

Lemma UnmarshalMap_by_value_target_witness :
  UnmarshalMap amd64 [("A.X", Some (VInt I 5))] (Some (zero exportedTarget))
  = (Some (zero exportedTarget), Panicked PanicUnaddressable) /\
  UnmarshalMap amd64 [("a.x", Some (VInt I 5))] (Some (zero exampleTarget))
  = (Some (zero exampleTarget), Panicked PanicUnexportedField).
Proof.
  split.
  - apply (UnmarshalMap_by_value_target amd64 "A.X" (VInt I 5) [] "Target"
             [("A", zero exportedInner); ("N", zero (TUint U8))] (VInt I 0));
      reflexivity.
  - apply (UnmarshalMap_by_value_target amd64 "a.x" (VInt I 5) [] "Target"
             [("a", zero exampleInner); ("n", zero (TUint U8))] (VInt I 0));
      reflexivity.
Defined.

(** ** UnmarshalByteMap *)

(** The map [im] that [UnmarshalByteMap] hands to [UnmarshalMap]. *)
Lemma UnmarshalByteMap_generic env bmu bm x :
  bmu (typeOf x) = None -> bm <> [] ->
  UnmarshalByteMap env bmu bm (Some x)
  = UnmarshalMap env (map (fun kv => (fst kv, Some (bytesValue (snd kv)))) bm) (Some x).
Proof.
  intros Hbmu Hbm. unfold UnmarshalByteMap. rewrite Hbmu.
  case_decide; [by destruct bm|done].
Qed.



(** X16. A byte-keyed mapping with a nil or empty byte slice cannot be
    decoded: when the first entry the iteration visits has such a value and a
    key that leads to a field, UnmarshalByteMap fails with the
    empty-byte-slice InvalidData error, whatever the type of the field, and
    the field is left as it was. *)
Theorem UnmarshalByteMap_empty_value env bmu mk bs post T name fs a fv :
  bmu (TPtr T) = None ->
  mapUnmarshaler env (TPtr T) = None ->
  default [] bs = [] ->
  locate env Settable (Split mk Separator) (VStruct name fs) = Some (a, fv) ->
  exists rv',
    UnmarshalByteMap env bmu ((mk, bs) :: post) (Some (VPtr T (Some (VStruct name fs))))
    = (Some (VPtr T (Some rv')), Failure (ErrInvalidData EmptyByteSlice)) /\
    resolve (Split mk Separator) rv' = Some fv.
Proof.
  intros Hbmu Hmu Hbs Hloc.
  rewrite UnmarshalByteMap_generic by done. cbn [map fst snd].
  destruct (UnmarshalMap_entry env [] mk (Some (bytesValue bs))
              (map (fun kv => (fst kv, Some (bytesValue (snd kv)))) post)
              T name fs (VStruct name fs) a fv Hmu eq_refl Hloc)
    as (rv' & Hfield & _ & Hcall).
  cbn [app] in Hcall. rewrite assign_bytes, Hbs in Hfield, Hcall.
  by exists rv'.
Qed.

Lemma UnmarshalByteMap_empty_value_witness :
  exists rv',
    UnmarshalByteMap amd64 (fun _ => None) [("n", None)]
      (Some (VPtr exampleTarget (Some (zero exampleTarget))))
    = (Some (VPtr exampleTarget (Some rv')), Failure (ErrInvalidData EmptyByteSlice)) /\
    resolve ["n"] rv' = Some (VUint U8 0).
Proof.
  apply (UnmarshalByteMap_empty_value amd64 (fun _ => None) "n" None [] exampleTarget
           "Target" [("a", zero exampleInner); ("n", zero (TUint U8))] ReadOnly
           (VUint U8 0));
    reflexivity.
Defined.

(** ** A failing entry *)


